(** * trid: a wrapper around the TrID file identifier

    Shallow embedding of [trid.go] (package [trid]) and of the parts of the Go
    standard library it calls ([strings], [strconv], [regexp]), followed by the
    properties of the output parser, the error classifier and [Scan].

    Go strings are byte sequences: they are modelled as [list ascii]. *)

From Stdlib Require Import Ascii String DecimalString DecimalPos DecimalZ.
From Stdlib Require Import ZArith QArith.
From Stdlib Require Import Bool PeanoNat Lia List.
Import ListNotations.
Close Scope Q_scope.
Local Open Scope Z_scope.
Local Open Scope nat_scope.
Local Open Scope list_scope.

Definition bytes := list ascii.

(** [B "text"] is the Go string literal ["text"]. *)
Definition B (s : string) : bytes := list_ascii_of_string s.

Definition LF : ascii := "010"%char.
Definition CR : ascii := "013"%char.
Definition TAB : ascii := "009"%char.
Definition VT : ascii := "011"%char.
Definition FF : ascii := "012"%char.

(** ** Package [strings] *)

Module strings.

(** [strings.HasPrefix(s, prefix)]. *)
Fixpoint HasPrefix (s prefix : bytes) {struct prefix} : bool :=
  match prefix, s with
  | [], _ => true
  | _ :: _, [] => false
  | p :: prefix', a :: s' => Ascii.eqb a p && HasPrefix s' prefix'
  end.

(** [strings.Contains(s, substr)], that is [Index(s, substr) >= 0]: a
    byte-wise search, no case folding. *)
Fixpoint Contains (s substr : bytes) : bool :=
  HasPrefix s substr ||
  match s with
  | [] => false
  | _ :: s' => Contains s' substr
  end.

(** [strings.Replace(s, old, new, -1)] and [strings.ReplaceAll(s, old, new)]
    for a non-empty [old] (both call sites pass a non-empty literal): every
    non-overlapping occurrence, found left to right, is replaced.  [skip]
    counts the bytes of an occurrence of [old] still to be dropped. *)
Fixpoint replace_from (old new : bytes) (skip : nat) (s : bytes) : bytes :=
  match s with
  | [] => []
  | a :: s' =>
      match skip with
      | S n => replace_from old new n s'
      | O =>
          if HasPrefix s old
          then new ++ replace_from old new (length old - 1) s'
          else a :: replace_from old new 0 s'
      end
  end.

Definition ReplaceAll (s old new : bytes) : bytes :=
  match old with
  | [] => s
  | _ :: _ => replace_from old new 0 s
  end.

(** [strings.Split(s, sep)] for a non-empty [sep]: the pieces between
    the non-overlapping occurrences of [sep], found left to right; always
    at least one piece.  [cur] is the piece being read, reversed. *)
Fixpoint split_from (sep : bytes) (skip : nat) (cur : bytes) (s : bytes)
  : list bytes :=
  match s with
  | [] => [rev cur]
  | a :: s' =>
      match skip with
      | S n => split_from sep n cur s'
      | O =>
          if HasPrefix s sep
          then rev cur :: split_from sep (length sep - 1) [] s'
          else split_from sep 0 (a :: cur) s'
      end
  end.

Definition Split (s sep : bytes) : list bytes :=
  match sep with
  | [] => [s]
  | _ :: _ => split_from sep 0 [] s
  end.

(** The table [asciiSpace] of package [strings]. *)
Definition asciiSpace (a : ascii) : bool :=
  Ascii.eqb a TAB || Ascii.eqb a LF || Ascii.eqb a VT || Ascii.eqb a FF
  || Ascii.eqb a CR || Ascii.eqb a " ".

(** [c < utf8.RuneSelf]. *)
Definition isASCII (a : ascii) : bool := (nat_of_ascii a <? 128)%nat.

Definition isUpper (a : ascii) : bool :=
  (65 <=? nat_of_ascii a)%nat && (nat_of_ascii a <=? 90)%nat.

Definition lowerByte (a : ascii) : ascii :=
  if isUpper a then ascii_of_nat (nat_of_ascii a + 32) else a.

Section Unicode.

(** The Unicode tables of the Go runtime are not part of this repository.
    The two slow paths that consult them are parameters:
    [TrimFunc_IsSpace s] is [strings.TrimFunc(s, unicode.IsSpace)] and
    [Map_ToLower s] is [strings.Map(unicode.ToLower, s)]. *)
Variable TrimFunc_IsSpace : bytes -> bytes.
Variable Map_ToLower : bytes -> bytes.

(** First loop of [strings.TrimSpace]: skip leading ASCII space; at the
    first non-ASCII byte the rest is handed to the slow path ([inr]). *)
Fixpoint trimLeft (s : bytes) : bytes + bytes :=
  match s with
  | [] => inl []
  | a :: s' =>
      if negb (isASCII a) then inr (TrimFunc_IsSpace s)
      else if asciiSpace a then trimLeft s'
      else inl s
  end.

(** Second loop of [strings.TrimSpace], run on the reversed string. *)
Fixpoint trimRight (r : bytes) : bytes + bytes :=
  match r with
  | [] => inl []
  | a :: r' =>
      if negb (isASCII a) then inr (TrimFunc_IsSpace (rev r))
      else if asciiSpace a then trimRight r'
      else inl (rev r)
  end.

Definition TrimSpace (s : bytes) : bytes :=
  match trimLeft s with
  | inr t => t
  | inl s1 =>
      match trimRight (rev s1) with
      | inr t => t
      | inl t => t
      end
  end.

(** [strings.ToLower]: the byte loop for a pure ASCII string, the Unicode
    mapping otherwise. *)
Definition ToLower (s : bytes) : bytes :=
  if forallb isASCII s then map lowerByte s else Map_ToLower s.

End Unicode.

End strings.

(** ** Package [strconv] *)

Module strconv.

(** [strconv.Itoa]: base 10, a leading minus sign for negative numbers. *)
Definition Itoa (i : Z) : bytes := B (NilZero.string_of_int (Z.to_int i)).

Definition isDigit (a : ascii) : bool :=
  (48 <=? nat_of_ascii a)%nat && (nat_of_ascii a <=? 57)%nat.

Definition digitVal (a : ascii) : Z := Z.of_nat (nat_of_ascii a - 48).

(** The decimal mantissa read so far: [mant / 10 ^ frac]. *)
Record decimal := { mant : Z; frac : nat; sawdot : bool; sawdigits : bool }.

(** The digit loop of [readFloat] on a string of digits and dots: a second
    dot, or a string without any digit, is a syntax error. *)
Fixpoint readFloat (s : bytes) (d : decimal) : option decimal :=
  match s with
  | [] => if sawdigits d then Some d else None
  | a :: s' =>
      if Ascii.eqb a "." then
        if sawdot d then None
        else readFloat s' {| mant := mant d; frac := frac d;
                             sawdot := true; sawdigits := sawdigits d |}
      else if isDigit a then
        readFloat s' {| mant := 10 * mant d + digitVal a;
                        frac := if sawdot d then S (frac d) else frac d;
                        sawdot := sawdot d; sawdigits := true |}
      else None
  end.

(** A finite non-negative [float64] is modelled by the rational it denotes.
    [round64 n d] is the float64 nearest to [n / d] (ties to even), or [None]
    when [n / d] is at least half an ulp above [math.MaxFloat64]. *)
Definition round64 (n d : Z) : option Q :=
  if (n <=? 0)%Z then Some (0 # 1)%Q else
  let k0 := (Z.log2 n - Z.log2 d)%Z in
  let k := if (0 <=? k0)%Z
           then (if (d * 2 ^ k0 <=? n)%Z then k0 else k0 - 1)%Z
           else (if (d <=? n * 2 ^ (- k0))%Z then k0 else k0 - 1)%Z in
  let e := Z.max (k - 52) (-1074) in
  let num := if (0 <=? e)%Z then n else (n * 2 ^ (- e))%Z in
  let den := if (0 <=? e)%Z then (d * 2 ^ e)%Z else d in
  let q := (num / den)%Z in
  let r := (num mod den)%Z in
  let q' := if (2 * r <? den)%Z then q
            else if (den <? 2 * r)%Z then (q + 1)%Z
            else if Z.even q then q else (q + 1)%Z in
  let v := if (0 <=? e)%Z then inject_Z (q' * 2 ^ e)
           else Qred (Qmake q' (Z.to_pos (2 ^ (- e)))) in
  if Qle_bool (inject_Z (2 ^ 1024)) v then None else Some v.

Section Syntax.

(** [strconv.ParseFloat(s, 64)] on a string that holds a byte other than a
    digit or a dot (sign, exponent, hexadecimal, infinities, NaN) is a
    parameter: [parseOutput] never passes such a string. *)
Variable ParseFloat_other : bytes -> option Q.

(** [strconv.ParseFloat(s, 64)]; [None] stands for a non-nil error
    ([ErrSyntax] or [ErrRange]). *)
Definition ParseFloat (s : bytes) : option Q :=
  if forallb (fun a => Ascii.eqb a "." || isDigit a) s then
    match readFloat s {| mant := 0; frac := 0;
                         sawdot := false; sawdigits := false |} with
    | None => None
    | Some d => round64 (mant d) (10 ^ Z.of_nat (frac d))
    end
  else ParseFloat_other s.

End Syntax.

End strconv.

(** ** Package [regexp]

    Go's [regexp] returns the leftmost match and, among the matches that
    start there, the one a backtracking search finds first (package
    documentation of [regexp]).  The matcher below is that backtracking
    search, in continuation-passing style, on bytes.

    Working on bytes instead of runes is exact for the two patterns of this
    package: their literals and classes are ASCII (the two non-ASCII case
    folds of [(?i)] are written out byte by byte), a byte of a multi-byte
    rune is neither a newline nor a parenthesis, so [.] and [[^()]] consume a
    rune byte by byte and nothing that follows them can match inside it. *)

Module regexp.

Inductive regex : Type :=
| Eps
| Chr (p : ascii -> bool)          (* one byte of a class *)
| Cat (r1 r2 : regex)
| Alt (r1 r2 : regex)              (* r1|r2, r1 preferred *)
| Star (greedy : bool) (r : regex) (* r* and r*? *)
| Cap (i : nat) (r : regex)        (* capturing group number i *)
| Eol.                             (* $ under (?m) *)

Definition Plus (greedy : bool) (r : regex) : regex := Cat r (Star greedy r).

(** [r?] (greedy): one occurrence is tried first. *)
Definition Opt (r : regex) : regex := Alt r Eps.

(** The submatches found so far, indexed by group number. *)
Definition caps := list bytes.

Fixpoint set_cap (i : nat) (w : bytes) (c : caps) : caps :=
  match c, i with
  | [], _ => []
  | _ :: c', O => w :: c'
  | x :: c', S i' => x :: set_cap i' w c'
  end.

(** What was read between the input [s] and its suffix [s']. *)
Definition consumed (s s' : bytes) : bytes := firstn (length s - length s') s.

(** A match: the submatches and the input left after the match. *)
Definition result := (caps * bytes)%type.

Definition cont := bytes -> caps -> option result.

(** The loop of [r*] and [r*?]: [body] runs [r] once, [n] bounds the number
    of iterations, and an iteration that reads nothing is not repeated. *)
Fixpoint star_loop (body : bytes -> caps -> cont -> option result)
    (greedy : bool) (k : cont) (n : nat) (s : bytes) (c : caps)
  : option result :=
  match n with
  | O => k s c
  | S n' =>
      let again := fun s' c' =>
        if length s' <? length s then star_loop body greedy k n' s' c'
        else None in
      if greedy then
        match body s c again with
        | Some x => Some x
        | None => k s c
        end
      else
        match k s c with
        | Some x => Some x
        | None => body s c again
        end
  end.

(** [run r s c k]: match [r] at the start of [s], then continue with [k];
    the first success in backtracking order. *)
Fixpoint run (r : regex) (s : bytes) (c : caps) (k : cont) : option result :=
  match r with
  | Eps => k s c
  | Chr p =>
      match s with
      | a :: s' => if p a then k s' c else None
      | [] => None
      end
  | Cat r1 r2 => run r1 s c (fun s' c' => run r2 s' c' k)
  | Alt r1 r2 =>
      match run r1 s c k with
      | Some x => Some x
      | None => run r2 s c k
      end
  | Star g r1 => star_loop (run r1) g k (length s) s c
  | Cap i r1 => run r1 s c (fun s' c' => k s' (set_cap i (consumed s s') c'))
  | Eol =>
      match s with
      | [] => k s c
      | a :: _ => if Ascii.eqb a LF then k s c else None
      end
  end.

(** A compiled pattern: the expression and its number of groups. *)
Record Regexp := { expr : regex; numSubexp : nat }.

Definition accept : cont := fun s c => Some (c, s).

(** The unanchored search: the leftmost start at which [run] succeeds.
    Group 0 is the whole match. *)
Fixpoint search (re : Regexp) (s : bytes) : option result :=
  match run (Cap 0 (expr re)) s (repeat [] (S (numSubexp re))) accept with
  | Some x => Some x
  | None =>
      match s with
      | [] => None
      | _ :: s' => search re s'
      end
  end.

(** [re.FindStringSubmatch(s)]: the nil slice is the empty list. *)
Definition FindStringSubmatch (re : Regexp) (s : bytes) : list bytes :=
  match search re s with
  | Some (c, _) => c
  | None => []
  end.

(** The loop of [allMatches] behind [re.FindAllStringSubmatch(s, -1)]:
    the search restarts where the previous match ended; an empty match at
    the restart position moves on by one position and is dropped when it
    touches the previous match ([prev]).  Neither pattern of this package
    matches the empty string. *)
Fixpoint allMatches (re : Regexp) (n : nat) (prev : bool) (s : bytes)
  : list (list bytes) :=
  match n with
  | O => []
  | S n' =>
      match search re s with
      | None => []
      | Some (c, s') =>
          if length s' <? length s then c :: allMatches re n' true s'
          else
            let more := match s with
                        | [] => []
                        | _ :: t => allMatches re n' false t
                        end in
            if prev then more else c :: more
      end
  end.

Definition FindAllStringSubmatch (re : Regexp) (s : bytes)
  : list (list bytes) :=
  allMatches re (S (length s)) false s.

End regexp.

(** ** Package [trid] *)

Import strings strconv regexp.

(** An error value of [os] or [os/exec]; [notExist] tells whether
    [os.IsNotExist] holds of it. *)
Record os_error := { notExist : bool; message : bytes }.

(** The error values of the package, an error of the operating system
    returned as it is, and [ErrTimedOut cause], which is
    [fmt.Errorf("command timed out: %w", cause)]. *)
Inductive error : Type :=
| ErrNoFileSpecified
| ErrNumberOfMatches
| ErrNoDefinitions
| ErrEmptyDefPackage
| ErrFileNotFound
| ErrUnknownFileType
| ErrOS (e : os_error)
| ErrTimedOut (cause : option os_error).

(** *** The two patterns *)

(** [[0-9.]] *)
Definition digit_or_dot (a : ascii) : bool := Ascii.eqb a "." || isDigit a.

(** [\s], which is [[\t\n\f\r ]] in Go. *)
Definition space (a : ascii) : bool :=
  Ascii.eqb a TAB || Ascii.eqb a LF || Ascii.eqb a FF || Ascii.eqb a CR
  || Ascii.eqb a " ".

(** [.] without the flag [s]: any byte but a newline. *)
Definition any (a : ascii) : bool := negb (Ascii.eqb a LF).

(** [[^()]]: a negated class does match a newline. *)
Definition not_paren (a : ascii) : bool :=
  negb (Ascii.eqb a "(" || Ascii.eqb a ")").

(** The class of one byte. *)
Definition byte (x : ascii) (a : ascii) : bool := Ascii.eqb a x.

(** [\s+\([^()]+\)]: a parenthesized group and the space before it. *)
Definition paren_group : regex :=
  Cat (Plus true (Chr space))
      (Cat (Chr (byte "("))
           (Cat (Plus true (Chr not_paren)) (Chr (byte ")")))).

(** [(?mi)([0-9.]+%)\s+\((\..*?)\)\s+(.*?(?:\s+\([^()]+\))*?)(?:\s+\([^()]+\))?$]
    (the pattern has no letter, so [i] changes nothing). *)
Definition reFileInfo : Regexp :=
  {| expr :=
       Cat (Cap 1 (Cat (Plus true (Chr digit_or_dot)) (Chr (byte "%"))))
      (Cat (Plus true (Chr space))
      (Cat (Chr (byte "("))
      (Cat (Cap 2 (Cat (Chr (byte ".")) (Star false (Chr any))))
      (Cat (Chr (byte ")"))
      (Cat (Plus true (Chr space))
      (Cat (Cap 3 (Cat (Star false (Chr any)) (Star false paren_group)))
      (Cat (Opt paren_group)
           Eol)))))));
     numSubexp := 3 |}.

(** Case folding of [(?i)]: a letter matches both of its cases; [k] and [s]
    also match U+212A (KELVIN SIGN) and U+017F (LATIN SMALL LETTER LONG S),
    here in UTF-8. *)
Definition eq_fold (x a : ascii) : bool :=
  Ascii.eqb (lowerByte a) (lowerByte x).

Definition fold_extra (x : ascii) : option bytes :=
  if Ascii.eqb (lowerByte x) "k" then Some ["226"; "132"; "170"]%char
  else if Ascii.eqb (lowerByte x) "s" then Some ["197"; "191"]%char
  else None.

Fixpoint exactly (w : bytes) : regex :=
  match w with
  | [] => Eps
  | x :: w' => Cat (Chr (byte x)) (exactly w')
  end.

Definition fold_atom (x : ascii) : regex :=
  match fold_extra x with
  | Some u => Alt (Chr (eq_fold x)) (exactly u)
  | None => Chr (eq_fold x)
  end.

(** A literal under [(?i)]. *)
Fixpoint literal_i (w : bytes) : regex :=
  match w with
  | [] => Eps
  | x :: w' => Cat (fold_atom x) (literal_i w')
  end.

(** The four keys, in the order of the alternation. *)
Definition detail_keys : list bytes :=
  [B "Mime type"; B "Related URL"; B "Definition"; B "Remarks"].

Fixpoint one_of_i (ws : list bytes) : regex :=
  match ws with
  | [] => Chr (fun _ => false)
  | [w] => literal_i w
  | w :: ws' => Alt (literal_i w) (one_of_i ws')
  end.

(** [(?mi)(Mime type|Related URL|Definition|Remarks)\s*:\s*(.*?)$] *)
Definition reFileDetails : Regexp :=
  {| expr :=
       Cat (Cap 1 (one_of_i detail_keys))
      (Cat (Star true (Chr space))
      (Cat (Chr (byte ":"))
      (Cat (Star true (Chr space))
      (Cat (Cap 2 (Star false (Chr any)))
           Eol))));
     numSubexp := 2 |}.

(** *** Data *)

Record Options := {
  Cmd : bytes;          (* command that invokes TrID *)
  Definitions : bytes;  (* path of the definitions package *)
  Timeout : Z           (* time.Duration, in nanoseconds *)
}.

Record FileType := {
  Extension : bytes;
  Probability : Q;
  Name : bytes;
  MimeType : bytes;
  RelatedURL : bytes;
  Remarks : bytes;
  Definition_ : bytes   (* the field Definition *)
}.

(** One command handed to [os/exec]:
    [exec.CommandContext(ctx, name, args...)] under a context that expires
    after [timeout]. *)
Record Command := { name : bytes; timeout : Z; args : list bytes }.

Definition Second : Z := 1000000000.

(** [NewTrid]: the options with their defaults filled in. *)
Definition NewTrid (opts : Options) : Options :=
  let cmd := match Cmd opts with [] => B "trid" | _ :: _ => Cmd opts end in
  let tmo := if (Timeout opts =? 0)%Z then (30 * Second)%Z else Timeout opts in
  {| Cmd := cmd; Definitions := Definitions opts; Timeout := tmo |}.

(** [checkTridError]: the known error messages of TrID. *)
Definition checkTridError (out : bytes) : option error :=
  if Contains out (B "you have to specify at least one file to analyze")
  then Some ErrNoFileSpecified
  else if Contains out (B "No definitions available!")
  then Some ErrNoDefinitions
  else if Contains out (B "Def package") && Contains out (B "is empty!")
  then Some ErrEmptyDefPackage
  else if Contains out (B "Error: found no file(s) to analyze!")
  then Some ErrFileNotFound
  else if Contains out (B "Unknown!")
  then Some ErrUnknownFileType
  else None.

Section Trid.

(** What the Go runtime and the operating system contribute. *)
Variable TrimFunc_IsSpace : bytes -> bytes.
Variable Map_ToLower : bytes -> bytes.
Variable ParseFloat_other : bytes -> option Q.
(** [os.Stat(path)]: the error, if any. *)
Variable Stat : bytes -> option os_error.
(** [cmd.CombinedOutput()] of such a command: the captured output, the
    error (also that of a command that could not be started), and whether
    [ctx.Err()] is [context.DeadlineExceeded] afterwards. *)
Variable CombinedOutput : Command -> bytes * option os_error * bool.

(** The [switch] on [m[1]] in the loop over [fileDetails]. *)
Definition setDetail (f : FileType) (m : list bytes) : FileType :=
  let key := nth 1 m [] in
  let val := nth 2 m [] in
  if list_eq_dec ascii_dec key (B "Mime type") then
    {| Extension := Extension f; Probability := Probability f;
       Name := Name f; MimeType := val; RelatedURL := RelatedURL f;
       Remarks := Remarks f; Definition_ := Definition_ f |}
  else if list_eq_dec ascii_dec key (B "Related URL") then
    {| Extension := Extension f; Probability := Probability f;
       Name := Name f; MimeType := MimeType f; RelatedURL := val;
       Remarks := Remarks f; Definition_ := Definition_ f |}
  else if list_eq_dec ascii_dec key (B "Definition") then
    {| Extension := Extension f; Probability := Probability f;
       Name := Name f; MimeType := MimeType f; RelatedURL := RelatedURL f;
       Remarks := Remarks f; Definition_ := val |}
  else if list_eq_dec ascii_dec key (B "Remarks") then
    {| Extension := Extension f; Probability := Probability f;
       Name := Name f; MimeType := MimeType f; RelatedURL := RelatedURL f;
       Remarks := val; Definition_ := Definition_ f |}
  else f.

(** The body of the loop over [results] in [parseOutput]: [continue]
    leaves [fileTypes] as it is. *)
Definition parseResult (fileTypes : list FileType) (result : bytes)
  : list FileType :=
  let fileInfo := FindStringSubmatch reFileInfo result in
  if negb (length fileInfo =? 4) then fileTypes else
  let fileInfo1 :=
    TrimSpace TrimFunc_IsSpace
      (ReplaceAll (nth 1 fileInfo []) (B "%") []) in
  if length fileInfo1 =? 0 then fileTypes else
  match ParseFloat ParseFloat_other fileInfo1 with
  | None => fileTypes
  | Some probability =>
      let f := {| Probability := probability;
                  Extension := ToLower Map_ToLower (nth 2 fileInfo []);
                  Name := nth 3 fileInfo [];
                  MimeType := []; RelatedURL := []; Remarks := [];
                  Definition_ := [] |} in
      let fileDetails := FindAllStringSubmatch reFileDetails result in
      fileTypes ++ [fold_left setDetail fileDetails f]
  end.

(** [fileInfo[1]] of a block after it is stripped: what [parseOutput]
    hands to [ParseFloat]. *)
Definition probability_field (block : bytes) : bytes :=
  TrimSpace TrimFunc_IsSpace
    (ReplaceAll (nth 1 (FindStringSubmatch reFileInfo block) []) (B "%") []).

(** The blocks [parseOutput] iterates over. *)
Definition results (out : bytes) : list bytes :=
  Split (ReplaceAll out [CR; LF] [LF]) [LF; LF].

(** [parseOutput]: the records, and the error (always nil). *)
Definition parseOutput (out : bytes) : list FileType * option error :=
  (fold_left parseResult (results out) [], None).

(** [execCmd]: the command handed to [os/exec], then its output and its
    error, wrapped when the deadline was exceeded. *)
Definition execCmd (name : bytes) (timeout : Z) (args : list bytes)
  : list Command * (bytes * option error) :=
  let cmd := {| name := name; timeout := timeout; args := args |} in
  let '(out, err, deadlineExceeded) := CombinedOutput cmd in
  if deadlineExceeded then ([cmd], (out, Some (ErrTimedOut err)))
  else ([cmd], (out, option_map ErrOS err)).

(** The method [Scan] of [Trid]: the commands handed to [os/exec], then
    the two results, where [None] in the first place is the nil slice. *)
Definition Scan (t : Options) (filePath : bytes) (numberOfMatches : Z)
  : list Command * (option (list FileType) * option error) :=
  match filePath with
  | [] => ([], (None, Some ErrNoFileSpecified))
  | _ :: _ =>
  match Stat filePath with
  | Some err =>
      if notExist err then ([], (None, Some ErrFileNotFound))
      else ([], (None, Some (ErrOS err)))
  | None =>
  if (numberOfMatches <? 1)%Z then ([], (None, Some ErrNumberOfMatches))
  else
    let args := [B "-v"; B "-n:" ++ Itoa numberOfMatches] in
    let args := match Definitions t with
                | [] => args
                | _ :: _ => args ++ [B "-d:" ++ Definitions t]
                end in
    let args := args ++ [filePath] in
    let '(started, (out, err)) := execCmd (Cmd t) (Timeout t) args in
    match checkTridError out with
    | Some tridErr => (started, (None, Some tridErr))
    | None =>
        match err with
        | Some e => (started, (None, Some e))
        | None =>
            let '(fileTypes, perr) := parseOutput out in
            (started, (Some fileTypes, perr))
        end
    end
  end
  end.

End Trid.

(** ** What a match is

    [Matches r s c s' c'] : [r] can read a prefix of [s], leaving [s'], and
    turn the submatches [c] into [c'].  The backtracking search returns one
    such match (lemma [run_sound]); which one is the matter of [run]. *)
Inductive Matches : regex -> bytes -> caps -> bytes -> caps -> Prop :=
| M_Eps s c : Matches Eps s c s c
| M_Chr p a s c : p a = true -> Matches (Chr p) (a :: s) c s c
| M_Cat r1 r2 s c s1 c1 s2 c2 :
    Matches r1 s c s1 c1 -> Matches r2 s1 c1 s2 c2 ->
    Matches (Cat r1 r2) s c s2 c2
| M_AltL r1 r2 s c s' c' : Matches r1 s c s' c' -> Matches (Alt r1 r2) s c s' c'
| M_AltR r1 r2 s c s' c' : Matches r2 s c s' c' -> Matches (Alt r1 r2) s c s' c'
| M_StarStop g r s c : Matches (Star g r) s c s c
| M_StarStep g r s c s1 c1 s2 c2 :
    Matches r s c s1 c1 -> Matches (Star g r) s1 c1 s2 c2 ->
    Matches (Star g r) s c s2 c2
| M_Cap i r s c s' c' :
    Matches r s c s' c' ->
    Matches (Cap i r) s c s' (set_cap i (consumed s s') c')
| M_Eol s c : (s = [] \/ exists s', s = LF :: s') -> Matches Eol s c s c.

(** An expression without capturing group. *)
Fixpoint cap_free (r : regex) : bool :=
  match r with
  | Eps | Chr _ | Eol => true
  | Cat r1 r2 | Alt r1 r2 => cap_free r1 && cap_free r2
  | Star _ r1 => cap_free r1
  | Cap _ _ => false
  end.

(** [t] does not start with a byte of the class [p]. *)
Definition stops (p : ascii -> bool) (t : bytes) : Prop :=
  match t with
  | [] => True
  | a :: _ => p a = false
  end.

(** ** Vocabulary of the statements *)

(** [sub] occurs in [s], byte for byte. *)
Definition Occurs (sub s : bytes) : Prop := exists a b, s = a ++ sub ++ b.

(** The signatures of [checkTridError] in their order of priority: the
    phrases that must all occur, and the error they stand for. *)
Definition signatures : list (list bytes * error) :=
  [ ([B "you have to specify at least one file to analyze"],
     ErrNoFileSpecified);
    ([B "No definitions available!"], ErrNoDefinitions);
    ([B "Def package"; B "is empty!"], ErrEmptyDefPackage);
    ([B "Error: found no file(s) to analyze!"], ErrFileNotFound);
    ([B "Unknown!"], ErrUnknownFileType) ].

(** All the phrases of a signature occur in [out]. *)
Definition fires (out : bytes) (sg : list bytes * error) : Prop :=
  Forall (fun phrase => Occurs phrase out) (fst sg).

Definition firesb (out : bytes) (sg : list bytes * error) : bool :=
  forallb (Contains out) (fst sg).

(** The integer a decimal numeral denotes. *)
Definition decimal_value (s : bytes) : option Z :=
  option_map Z.of_int (NilZero.int_of_string (string_of_list_ascii s)).

(** The end-to-end example of the specification: a block with one detail
    line (indented by [indent] spaces), a blank line, a second block. *)
Definition example_report (indent : nat) : bytes :=
  B "85.50% (.pdf) Adobe Portable Document Format" ++ [LF]
  ++ repeat " "%char indent ++ B "Mime type: application/pdf" ++ [LF; LF]
  ++ B "10.00% (.ps) PostScript".

Definition example_records : list FileType :=
  [ {| Extension := B ".pdf"; Probability := (171 # 2)%Q;
       Name := B "Adobe Portable Document Format";
       MimeType := B "application/pdf";
       RelatedURL := []; Remarks := []; Definition_ := [] |};
    {| Extension := B ".ps"; Probability := (10 # 1)%Q;
       Name := B "PostScript";
       MimeType := []; RelatedURL := []; Remarks := []; Definition_ := [] |} ].

(** *** Well-formed headers

    A header line ["P% (E) N"]: [P] is a word of digits and dots, [E] starts
    with a dot and holds neither a closing parenthesis nor a newline, and
    the name [N] is a base text followed by qualifier groups, each a
    parenthesized text after some blanks. *)

Definition nonempty (w : bytes) : bool :=
  match w with [] => false | _ :: _ => true end.

(** A byte of [\s] other than the newline. *)
Definition blank (a : ascii) : bool := space a && any a.

Record qualifier := { q_space : bytes; q_text : bytes }.

Definition render_qualifier (q : qualifier) : bytes :=
  q_space q ++ "("%char :: q_text q ++ [")"%char].

Definition render_qualifiers (qs : list qualifier) : bytes :=
  concat (map render_qualifier qs).

Definition qualifier_ok (q : qualifier) : bool :=
  nonempty (q_space q) && forallb blank (q_space q)
  && nonempty (q_text q)
  && forallb (fun a => not_paren a && any a) (q_text q).

Record header := {
  h_prob : bytes;             (* P *)
  h_space1 : bytes;
  h_ext : bytes;              (* E *)
  h_space2 : bytes;
  h_base : bytes;             (* N, up to its qualifier groups *)
  h_quals : list qualifier    (* the qualifier groups that end N *)
}.

Definition header_name (h : header) : bytes :=
  h_base h ++ render_qualifiers (h_quals h).

Definition header_line (h : header) : bytes :=
  h_prob h ++ "%"%char :: h_space1 h ++ "("%char :: h_ext h
  ++ ")"%char :: h_space2 h ++ header_name h.

Definition ext_ok (e : bytes) : bool :=
  match e with
  | a :: e' =>
      Ascii.eqb a "." && forallb (fun a => any a && negb (byte ")" a)) e'
  | [] => false
  end.

Definition base_ok (b : bytes) : bool :=
  nonempty b && forallb (fun a => any a && negb (byte "(" a)) b
  && negb (space (hd " "%char b)) && negb (space (last b " "%char)).

Definition header_ok (h : header) : bool :=
  nonempty (h_prob h) && forallb digit_or_dot (h_prob h)
  && nonempty (h_space1 h) && forallb blank (h_space1 h)
  && ext_ok (h_ext h)
  && nonempty (h_space2 h) && forallb blank (h_space2 h)
  && base_ok (h_base h)
  && forallb qualifier_ok (h_quals h).

(** The name without its last qualifier group. *)
Definition name_less_last_group (h : header) : bytes :=
  h_base h ++ render_qualifiers (removelast (h_quals h)).

(** The header of the claim's shape whose name ends in one qualifier
    group: ["100.0% (.7Z) 7-Zip compressed archive (v0.4)"]. *)
Definition seven_zip : header :=
  {| h_prob := B "100.0"; h_space1 := B " "; h_ext := B ".7Z";
     h_space2 := B " "; h_base := B "7-Zip compressed archive";
     h_quals := [ {| q_space := B " "; q_text := B "v0.4" |} ] |}.

(** The last step of the scan for a group: blanks have been read. *)
Fixpoint opens_group_after (s : bytes) : bool :=
  match s with
  | [] => false
  | a :: s' => if space a then opens_group_after s' else Ascii.eqb a "("
  end.

(** [s] starts with [\s+\(]. *)
Definition opens_group (s : bytes) : bool :=
  match s with
  | [] => false
  | a :: s' => space a && opens_group_after s'
  end.

(** *** Detail lines *)

(** [u] read off the front of [s]. *)
Fixpoint strip_prefix (u s : bytes) : option bytes :=
  match u with
  | [] => Some s
  | x :: u' =>
      match s with
      | a :: s' => if Ascii.eqb a x then strip_prefix u' s' else None
      | [] => None
      end
  end.

(** [s] starts with a spelling of [w] that [(?i)] accepts. *)
Fixpoint fold_prefix (w s : bytes) : bool :=
  match w with
  | [] => true
  | x :: w' =>
      match s with
      | a :: s' => eq_fold x a && fold_prefix w' s'
      | [] => false
      end
      || match fold_extra x with
         | Some u =>
             match strip_prefix u s with
             | Some s' => fold_prefix w' s'
             | None => false
             end
         | None => false
         end
  end.

(** One of the four keys, in any letter case, starts [s]. *)
Definition starts_key (s : bytes) : bool :=
  existsb (fun w => fold_prefix w s) detail_keys.

(** None of the four keys, in any letter case, occurs in [s]. *)
Fixpoint key_free (s : bytes) : bool :=
  match s with
  | [] => true
  | _ :: s' => negb (starts_key s) && key_free s'
  end.

(** [key] is [w] up to the case of its ASCII letters. *)
Fixpoint fold_eqb (key w : bytes) : bool :=
  match key, w with
  | [], [] => true
  | a :: key', x :: w' => eq_fold x a && fold_eqb key' w'
  | _, _ => false
  end.

(** A line of a block after the header: either blanks, a key in some
    letter case, blanks, a colon, blanks and a value that runs to the end
    of the line; or a text in which no key occurs. *)
Inductive detail_line : Type :=
| KeyLine (indent key gap1 gap2 value : bytes)
| OtherLine (text : bytes).

Definition render_line (l : detail_line) : bytes :=
  match l with
  | KeyLine indent key gap1 gap2 value =>
      indent ++ key ++ gap1 ++ ":"%char :: gap2 ++ value
  | OtherLine text => text
  end.

(** The lines, each after a newline. *)
Definition render_lines (ls : list detail_line) : bytes :=
  concat (map (fun l => LF :: render_line l) ls).

Definition line_ok (l : detail_line) : bool :=
  match l with
  | KeyLine indent key gap1 gap2 value =>
      forallb blank indent && existsb (fold_eqb key) detail_keys
      && forallb blank gap1 && forallb blank gap2
      && nonempty value && forallb any value
      && negb (space (hd " "%char value))
  | OtherLine text => forallb any text && key_free text
  end.

(** What [reFileDetails] finds in a line: the match, the key, the value. *)
Definition line_match (l : detail_line) : list (list bytes) :=
  match l with
  | KeyLine indent key gap1 gap2 value =>
      [[key ++ gap1 ++ ":"%char :: gap2 ++ value; key; value]]
  | OtherLine _ => []
  end.

(** The value of the last line whose key is exactly [K]. *)
Fixpoint last_exact (K : bytes) (ls : list detail_line) : option bytes :=
  match ls with
  | [] => None
  | l :: ls' =>
      match last_exact K ls' with
      | Some v => Some v
      | None =>
          match l with
          | KeyLine _ key _ _ value =>
              if list_eq_dec ascii_dec key K then Some value else None
          | OtherLine _ => None
          end
      end
  end.

(** The field of a record that corresponds to a key. *)
Definition field_of (K : bytes) (f : FileType) : bytes :=
  if list_eq_dec ascii_dec K (B "Mime type") then MimeType f
  else if list_eq_dec ascii_dec K (B "Related URL") then RelatedURL f
  else if list_eq_dec ascii_dec K (B "Definition") then Definition_ f
  else if list_eq_dec ascii_dec K (B "Remarks") then Remarks f
  else [].

(** The first line with a key, and the lines after it. *)
Fixpoint next_match (ls : list detail_line)
  : option (list bytes * list detail_line) :=
  match ls with
  | [] => None
  | KeyLine indent key gap1 gap2 value :: ls' =>
      Some ([key ++ gap1 ++ ":"%char :: gap2 ++ value; key; value], ls')
  | OtherLine _ :: ls' => next_match ls'
  end.

(** *** Where [reFileDetails] can match *)

(** [s] starts with [\s*:]: after the white space that leads it, newlines
    included, comes a colon. *)
Fixpoint colon_next (s : bytes) : bool :=
  match s with
  | [] => false
  | a :: s' => if space a then colon_next s' else byte ":" a
  end.

(** [s] starts with a spelling of [w] that [(?i)] accepts, and what
    follows that spelling satisfies [P]. *)
Fixpoint fold_then (P : bytes -> bool) (w s : bytes) : bool :=
  match w with
  | [] => P s
  | x :: w' =>
      match s with
      | a :: s' => eq_fold x a && fold_then P w' s'
      | [] => false
      end
      || match fold_extra x with
         | Some u =>
             match strip_prefix u s with
             | Some s' => fold_then P w' s'
             | None => false
             end
         | None => false
         end
  end.

(** [s] starts with one of the four keys, in any letter case, followed by
    [\s*:]. *)
Definition starts_detail (s : bytes) : bool :=
  existsb (fun w => fold_then colon_next w s) detail_keys.

(** At no position of [text], read with [rest] after it, does a key
    followed by [\s*:] start. *)
Fixpoint detail_free (text rest : bytes) : bool :=
  match text with
  | [] => true
  | _ :: text' =>
      negb (starts_detail (text ++ rest)) && detail_free text' rest
  end.

(** The lines of a block after its header: key lines as [line_ok] has
    them, and lines of text in which, read with the lines after them, no
    key followed by [\s*:] starts. *)
Fixpoint lines_ok (ls : list detail_line) : bool :=
  match ls with
  | [] => true
  | l :: ls' =>
      match l with
      | KeyLine _ _ _ _ _ => line_ok l
      | OtherLine text =>
          forallb any text && detail_free text (render_lines ls')
      end
      && lines_ok ls'
  end.

(** The header ["100.0% (.TRD) TrID definition"], whose name ends in the
    letters of a key. *)
Definition trid_definition : header :=
  {| h_prob := B "100.0"; h_space1 := B " "; h_ext := B ".TRD";
     h_space2 := B " "; h_base := B "TrID definition"; h_quals := [] |}.

(** The header ["10.00% (.ps) PostScript"]. *)
Definition postscript : header :=
  {| h_prob := B "10.00"; h_space1 := B " "; h_ext := B ".ps";
     h_space2 := B " "; h_base := B "PostScript"; h_quals := [] |}.

(** The end of the header pattern, [(?:\s+\([^()]+\))?$]. *)
Definition header_end : regex := Cat (Opt paren_group) Eol.

(** *** Further vocabulary *)

(** The command [Scan] hands to [execCmd] once its inputs are validated. *)
Definition scan_command (t : Options) (filePath : bytes) (n : Z) : Command :=
  {| name := Cmd t; timeout := Timeout t;
     args := [B "-v"; B "-n:" ++ Itoa n]
             ++ match Definitions t with
                | [] => []
                | _ :: _ => [B "-d:" ++ Definitions t]
                end
             ++ [filePath] |}.

(** The inputs of [Scan] pass its three checks. *)
Definition valid_inputs (Stat : bytes -> option os_error)
    (filePath : bytes) (n : Z) : Prop :=
  filePath <> [] /\ Stat filePath = None /\ (1 <= n)%Z.

(** The place of an error in the order of the tests of [checkTridError]. *)
Definition priority (e : error) : nat :=
  match e with
  | ErrNoFileSpecified => 0
  | ErrNoDefinitions => 1
  | ErrEmptyDefPackage => 2
  | ErrFileNotFound => 3
  | ErrUnknownFileType => 4
  | _ => 5
  end.

(** A text with every newline written as carriage return and newline. *)
Fixpoint toCRLF (s : bytes) : bytes :=
  match s with
  | [] => []
  | a :: s' => if Ascii.eqb a LF then CR :: LF :: toCRLF s'
               else a :: toCRLF s'
  end.

(** A block as TrID prints it, a header and one detail line, and the
    record it stands for. *)
Definition pdf_block : bytes :=
  B " 85.5% (.PDF) Adobe Portable Document Format (5000/1/65)" ++ [LF]
  ++ B "  Mime type  : application/pdf".

Definition pdf_record : FileType :=
  {| Extension := B ".pdf"; Probability := (171 # 2)%Q;
     Name := B "Adobe Portable Document Format";
     MimeType := B "application/pdf"; RelatedURL := []; Remarks := [];
     Definition_ := [] |}.

(** The longest prefix of [s] in the class [p], and what follows it. *)
Fixpoint span (p : ascii -> bool) (s : bytes) : bytes * bytes :=
  match s with
  | [] => ([], [])
  | a :: s' => if p a then (a :: fst (span p s'), snd (span p s'))
               else ([], s)
  end.

(** A text without newline that does not start with a byte of [\s]. *)
Definition trimmed_line (v : bytes) : Prop :=
  forallb any v = true /\ stops space v.

(** * Properties *)

(** ** Substring search *)

Lemma HasPrefix_spec (s p : bytes) :
  HasPrefix s p = true <-> exists b, s = p ++ b.
Proof.
  revert s; induction p as [|x p IH]; intros s; simpl.
  - split; [intros _; now exists s | reflexivity].
  - destruct s as [|a s]; simpl.
    + split; [discriminate | intros [b Hb]; discriminate].
    + rewrite andb_true_iff, IH, Ascii.eqb_eq. split.
      * intros [-> [b ->]]. now exists b.
      * intros [b Hb]. injection Hb as -> ->.
        split; [reflexivity | now exists b].
Qed.

Lemma Contains_spec (s sub : bytes) :
  Contains s sub = true <-> Occurs sub s.
Proof.
  unfold Occurs. induction s as [|a s IH].
  - simpl. rewrite orb_false_r, HasPrefix_spec. split.
    + intros [b Hb]. now exists [], b.
    + intros [x [b Hb]]. destruct x; [now exists b | discriminate].
  - cbn [Contains]. rewrite orb_true_iff, HasPrefix_spec, IH. split.
    + intros [[b Hb] | [x [b Hb]]].
      * now exists [], b.
      * exists (a :: x), b. now rewrite Hb.
    + intros [x [b Hb]]. destruct x as [|a' x].
      * left. now exists b.
      * right. injection Hb as -> ->. now exists x, b.
Qed.

Lemma firesb_spec (out : bytes) (sg : list bytes * error) :
  firesb out sg = true <-> fires out sg.
Proof.
  unfold firesb, fires. rewrite forallb_forall, Forall_forall.
  split; intros H p Hp; apply Contains_spec, H, Hp.
Qed.

Lemma find_first {A : Type} (f : A -> bool) (l : list A) (x : A) :
  find f l = Some x <->
  exists pre post, l = pre ++ x :: post /\ f x = true
                   /\ Forall (fun y => f y = false) pre.
Proof.
  induction l as [|y l IH]; simpl.
  - split; [discriminate | intros (pre & post & H & _)].
    destruct pre; discriminate.
  - destruct (f y) eqn:Hy.
    + split.
      * intros [= ->]. exists [], l. auto.
      * intros (pre & post & H & Hx & Hpre). destruct pre as [|z pre].
        -- now injection H as ->.
        -- injection H as -> _. inversion Hpre; congruence.
    + rewrite IH. split.
      * intros (pre & post & -> & Hx & Hpre). exists (y :: pre), post. auto.
      * intros (pre & post & H & Hx & Hpre). destruct pre as [|z pre].
        -- injection H as -> _. congruence.
        -- injection H as -> ->. inversion Hpre; subst. now exists pre, post.
Qed.

Lemma find_none {A : Type} (f : A -> bool) (l : list A) :
  find f l = None <-> Forall (fun y => f y = false) l.
Proof.
  induction l as [|y l IH]; simpl.
  - split; auto.
  - destruct (f y) eqn:Hy.
    + split; [discriminate | intros H; inversion H; congruence].
    + rewrite IH. split; [auto | intros H; now inversion H].
Qed.

Lemma checkTridError_find (out : bytes) :
  checkTridError out = option_map snd (find (firesb out) signatures).
Proof.
  unfold checkTridError, signatures, firesb. cbn [find fst forallb].
  repeat rewrite andb_true_r.
  repeat match goal with
         | |- context [if ?b then _ else _] => destruct b; cbn; try reflexivity
         end.
Qed.

(** C2: [checkTridError] is a first-match search through the five phrase
    signatures in their fixed order of priority (no file specified, no
    definitions, empty definitions package with its two phrases, file not
    found, unknown file type): it returns the error of the first signature
    whose phrases all occur in the text, byte for byte, and returns none
    exactly when no signature fires. *)
Theorem checkTridError_first_signature (out : bytes) :
  (forall e, checkTridError out = Some e <->
     exists earlier phrases later,
       signatures = earlier ++ (phrases, e) :: later
       /\ fires out (phrases, e)
       /\ Forall (fun sg => ~ fires out sg) earlier)
  /\ (checkTridError out = None <->
        Forall (fun sg => ~ fires out sg) signatures).
Proof.
  rewrite checkTridError_find. split.
  - intros e. destruct (find (firesb out) signatures) as [[ps e']|] eqn:Hf; cbn.
    + apply find_first in Hf. destruct Hf as (pre & post & Hs & Hx & Hpre).
      split.
      * intros [= <-]. exists pre, ps, post. split; [exact Hs|]. split.
        -- now apply firesb_spec.
        -- eapply Forall_impl; [|exact Hpre]. intros sg Hsg Hfire.
           apply firesb_spec in Hfire. congruence.
      * intros (pre' & ps' & post' & Hs' & Hfire & Hpre'). f_equal.
        apply firesb_spec in Hfire.
        assert (Hfind : find (firesb out) signatures = Some (ps', e)).
        { apply find_first. exists pre', post'. split; [exact Hs'|].
          split; [exact Hfire|]. eapply Forall_impl; [|exact Hpre'].
          intros sg Hsg. destruct (firesb out sg) eqn:E; [|reflexivity].
          apply firesb_spec in E. contradiction. }
        assert (Hfind' : find (firesb out) signatures = Some (ps, e')).
        { apply find_first. now exists pre, post. }
        congruence.
    + split; [discriminate|]. intros (pre & ps & post & Hs & Hfire & _).
      apply find_none in Hf. rewrite Hs in Hf.
      apply Forall_app in Hf. destruct Hf as [_ Hf]. inversion Hf; subst.
      apply firesb_spec in Hfire. congruence.
  - destruct (find (firesb out) signatures) as [[ps e']|] eqn:Hf; cbn.
    + split; [discriminate|]. intros H.
      apply find_first in Hf. destruct Hf as (pre & post & Hs & Hx & _).
      rewrite Hs in H. apply Forall_app in H. destruct H as [_ H].
      inversion H; subst. apply firesb_spec in Hx. contradiction.
    + split; [|reflexivity]. intros _. apply find_none in Hf.
      eapply Forall_impl; [|exact Hf]. intros sg Hsg Hfire.
      apply firesb_spec in Hfire. congruence.
Qed.

(** ** The decimal numeral of the match count *)

Lemma Itoa_decimal (n : Z) : decimal_value (Itoa n) = Some n.
Proof.
  unfold decimal_value, Itoa, B.
  rewrite string_of_list_ascii_of_string.
  rewrite NilZero.isi.
  - cbn. now rewrite DecimalZ.of_to.
  - destruct n; cbn; try discriminate.
    intros [= H]. now apply DecimalPos.Unsigned.to_uint_nonnil in H.
  - destruct n; cbn; try discriminate.
    intros [= H]. now apply DecimalPos.Unsigned.to_uint_nonnil in H.
Qed.

(** ** The backtracking matcher *)

Lemma star_loop_ext body g (k1 k2 : cont) :
  (forall s c (j1 j2 : cont),
      (forall s' c', j1 s' c' = j2 s' c') -> body s c j1 = body s c j2) ->
  (forall s c, k1 s c = k2 s c) ->
  forall n s c, star_loop body g k1 n s c = star_loop body g k2 n s c.
Proof.
  intros Hbody Hk. induction n as [|n IH]; intros s c; cbn [star_loop].
  - apply Hk.
  - rewrite (Hk s c).
    rewrite (Hbody s c _ (fun s' c' =>
      if length s' <? length s then star_loop body g k2 n s' c' else None)).
    + reflexivity.
    + intros s' c'. destruct (length s' <? length s); [apply IH | reflexivity].
Qed.

(** The result of [run] depends on the continuation only through its
    values. *)
Lemma run_ext (r : regex) :
  forall s c (k1 k2 : cont),
    (forall s' c', k1 s' c' = k2 s' c') -> run r s c k1 = run r s c k2.
Proof.
  induction r as [|p|r1 IH1 r2 IH2|r1 IH1 r2 IH2|g r IH|i r IH|];
    intros s c k1 k2 Hk; cbn.
  - apply Hk.
  - destruct s as [|a s]; [reflexivity|].
    destruct (p a); [apply Hk|reflexivity].
  - apply IH1. intros s' c'. now apply IH2.
  - rewrite (IH1 s c k1 k2 Hk), (IH2 s c k1 k2 Hk). reflexivity.
  - apply star_loop_ext; assumption.
  - apply IH. intros s' c'. apply Hk.
  - destruct s as [|a s]; [apply Hk|].
    destruct (Ascii.eqb a LF); [apply Hk|reflexivity].
Qed.

Lemma star_loop_fail body g :
  (forall s c, body s c (fun _ _ => None) = None) ->
  (forall s c (j1 j2 : cont),
      (forall s' c', j1 s' c' = j2 s' c') -> body s c j1 = body s c j2) ->
  forall n s c, star_loop body g (fun _ _ => None) n s c = None.
Proof.
  intros Hfail Hext.
  induction n as [|n IH]; intros s c; cbn [star_loop]; [reflexivity|].
  rewrite (Hext s c _ (fun _ _ => None)).
  - rewrite Hfail. now destruct g.
  - intros s' c'. destruct (length s' <? length s); [apply IH | reflexivity].
Qed.

(** When the continuation always fails, so does [run]. *)
Lemma run_fail (r : regex) : forall s c, run r s c (fun _ _ => None) = None.
Proof.
  induction r as [|p|r1 IH1 r2 IH2|r1 IH1 r2 IH2|g r IH|i r IH|];
    intros s c; cbn.
  - reflexivity.
  - destruct s as [|a s]; [reflexivity|]. now destruct (p a).
  - rewrite (run_ext r1 s c _ (fun _ _ => None)); [apply IH1|].
    intros s' c'. apply IH2.
  - now rewrite IH1, IH2.
  - apply star_loop_fail; [exact IH | apply run_ext].
  - apply IH.
  - destruct s as [|a s]; [reflexivity|]. now destruct (Ascii.eqb a LF).
Qed.

(** The bound on the iterations of a star does not matter once it
    reaches the length of the input. *)
Lemma star_loop_fuel (r : regex) g (k : cont) :
  forall n m s c, length s <= n -> length s <= m ->
    star_loop (run r) g k n s c = star_loop (run r) g k m s c.
Proof.
  assert (Hempty : forall m c, star_loop (run r) g k m [] c = k [] c).
  { intros [|m] c; cbn; [reflexivity|].
    rewrite (run_ext r [] c _ (fun _ _ => None)) by reflexivity.
    rewrite run_fail. destruct g; [reflexivity | now destruct (k [] c)]. }
  induction n as [|n IH]; intros m s c Hn Hm.
  - destruct s; [|cbn in Hn; lia]. now rewrite !Hempty.
  - destruct m as [|m].
    + destruct s; [|cbn in Hm; lia]. now rewrite !Hempty.
    + cbn [star_loop].
      rewrite (run_ext r s c _ (fun s' c' =>
        if length s' <? length s then star_loop (run r) g k m s' c' else None)).
      * reflexivity.
      * intros s' c'. destruct (length s' <? length s) eqn:E; [|reflexivity].
        apply Nat.ltb_lt in E. apply IH; lia.
Qed.

(** The equation of the star: stop, or iterate once and go on, in the
    order its greediness prescribes. *)
Lemma run_Star g (r : regex) (s : bytes) (c : caps) (k : cont) :
  run (Star g r) s c k
  = let again := fun s' c' =>
      if length s' <? length s then run (Star g r) s' c' k else None in
    if g then match run r s c again with Some x => Some x | None => k s c end
    else match k s c with Some x => Some x | None => run r s c again end.
Proof.
  cbn [run]. destruct s as [|a s].
  - cbn. rewrite (run_ext r [] c _ (fun _ _ => None)) by reflexivity.
    rewrite run_fail. destruct g; [reflexivity | now destruct (k [] c)].
  - cbn [length star_loop].
    rewrite (run_ext r (a :: s) c _ (fun s' c' =>
      if length s' <? S (length s)
      then star_loop (run r) g k (length s') s' c' else None)).
    + reflexivity.
    + intros s' c'. destruct (length s' <? S (length s)) eqn:E; [|reflexivity].
      apply Nat.ltb_lt in E. apply star_loop_fuel; lia.
Qed.

(** Every result of the search is a match followed by a success of the
    continuation. *)
Lemma run_sound (r : regex) :
  forall s c (k : cont) x,
    run r s c k = Some x ->
    exists s' c', Matches r s c s' c' /\ k s' c' = Some x.
Proof.
  induction r as [|p|r1 IH1 r2 IH2|r1 IH1 r2 IH2|g r IH|i r IH|];
    intros s c k x H; cbn [run] in H.
  - exists s, c. split; [constructor | exact H].
  - destruct s as [|a s]; [discriminate|].
    destruct (p a) eqn:Hp; [|discriminate].
    exists s, c. split; [now constructor | exact H].
  - apply IH1 in H. destruct H as (s1 & c1 & M1 & H).
    apply IH2 in H. destruct H as (s2 & c2 & M2 & H).
    exists s2, c2. split; [econstructor; eassumption | exact H].
  - destruct (run r1 s c k) eqn:H1.
    + injection H as ->. apply IH1 in H1. destruct H1 as (s' & c' & M & H).
      exists s', c'. split; [now apply M_AltL | exact H].
    + apply IH2 in H. destruct H as (s' & c' & M & H).
      exists s', c'. split; [now apply M_AltR | exact H].
  - set (n := length s) in H at 1. clearbody n. revert s c x H.
    induction n as [|n IHn]; intros s c x H; cbn [star_loop] in H.
    + exists s, c. split; [constructor | exact H].
    + assert (Hiter : forall y,
          run r s c (fun s' c' =>
            if length s' <? length s then star_loop (run r) g k n s' c'
            else None) = Some y ->
          exists s' c', Matches (Star g r) s c s' c' /\ k s' c' = Some y).
      { intros y Hy. apply IH in Hy. destruct Hy as (s1 & c1 & M1 & Hy).
        destruct (length s1 <? length s); [|discriminate].
        apply IHn in Hy. destruct Hy as (s2 & c2 & M2 & Hy).
        exists s2, c2. split; [econstructor; eassumption | exact Hy]. }
      destruct g.
      * match type of H with
        | match ?e with _ => _ end = _ => destruct e eqn:He
        end.
        -- injection H as ->. now apply Hiter.
        -- exists s, c. split; [constructor | exact H].
      * destruct (k s c) eqn:Hk.
        -- injection H as ->. exists s, c. split; [constructor | exact Hk].
        -- now apply Hiter.
  - apply IH in H. destruct H as (s' & c' & M & H).
    exists s', (set_cap i (consumed s s') c').
    split; [now constructor | exact H].
  - exists s, c. split; [|destruct s as [|a s]; [exact H|]].
    + constructor. destruct s as [|a s]; [now left|].
      destruct (Ascii.eqb a LF) eqn:E; [|discriminate].
      apply Ascii.eqb_eq in E. subst a. right. now exists s.
    + destruct (Ascii.eqb a LF); [exact H | discriminate].
Qed.

(** A match reads a prefix of the input. *)
Lemma Matches_prefix r s c s' c' :
  Matches r s c s' c' -> exists w, s = w ++ s'.
Proof.
  induction 1;
    repeat match goal with
           | H : exists _, _ |- _ => destruct H as [? ->]
           end.
  - now exists [].
  - now exists [a].
  - eexists. apply app_assoc.
  - eexists. reflexivity.
  - eexists. reflexivity.
  - now exists [].
  - eexists. apply app_assoc.
  - eexists. reflexivity.
  - now exists [].
Qed.

Lemma consumed_app (w s : bytes) : consumed (w ++ s) s = w.
Proof.
  unfold consumed. rewrite length_app.
  replace (length w + length s - length s) with (length w + 0) by lia.
  now rewrite firstn_app_2, firstn_O, app_nil_r.
Qed.

(** What a successful search returns: a match of the pattern somewhere in
    the input, with group 0 around it. *)
Lemma search_sound (re : Regexp) (s : bytes) (c : caps) (s' : bytes) :
  search re s = Some (c, s') ->
  exists pre s0,
    s = pre ++ s0
    /\ Matches (Cap 0 (expr re)) s0 (repeat [] (S (numSubexp re))) s' c.
Proof.
  induction s as [|a s IH]; cbn [search].
  - destruct (run _ _ _ _) eqn:H; [|discriminate]. intros [= ->].
    apply run_sound in H. destruct H as (s1 & c1 & M & [= -> ->]).
    now exists [], [].
  - destruct (run _ _ _ _) eqn:H.
    + intros [= ->]. apply run_sound in H.
      destruct H as (s1 & c1 & M & [= -> ->]). now exists [], (a :: s).
    + intros H'. apply IH in H'. destruct H' as (pre & s0 & -> & M).
      now exists (a :: pre), s0.
Qed.

(** ** Inversion of matches *)

Lemma Matches_Cat_inv r1 r2 s c s2 c2 :
  Matches (Cat r1 r2) s c s2 c2 ->
  exists s1 c1, Matches r1 s c s1 c1 /\ Matches r2 s1 c1 s2 c2.
Proof. inversion 1; subst; eauto. Qed.

Lemma Matches_Cap_inv i r s c s' c2 :
  Matches (Cap i r) s c s' c2 ->
  exists c', Matches r s c s' c' /\ c2 = set_cap i (consumed s s') c'.
Proof. inversion 1; subst; eauto. Qed.

Lemma Matches_Chr_inv p s c s' c' :
  Matches (Chr p) s c s' c' -> c' = c /\ exists a, s = a :: s' /\ p a = true.
Proof. inversion 1; subst; eauto. Qed.

Lemma Matches_cap_free r s c s' c' :
  Matches r s c s' c' -> cap_free r = true -> c' = c.
Proof.
  induction 1; cbn [cap_free]; intros Hf;
    try apply andb_true_iff in Hf; try reflexivity; try discriminate.
  - destruct Hf as [H1 H2]. rewrite (IHMatches2 H2). now apply IHMatches1.
  - destruct Hf as [H1 H2]. now apply IHMatches.
  - destruct Hf as [H1 H2]. now apply IHMatches.
  - rewrite (IHMatches2 Hf). now apply IHMatches1.
Qed.

(** What a star of a class reads is a word of the class. *)
Lemma Matches_star_class g p s c s' c' :
  Matches (Star g (Chr p)) s c s' c' ->
  exists w, s = w ++ s' /\ forallb p w = true.
Proof.
  remember (Star g (Chr p)) as r eqn:Hr. induction 1; try discriminate.
  - now exists [].
  - injection Hr as -> ->. destruct (IHMatches2 eq_refl) as (w & -> & Hw).
    apply Matches_Chr_inv in H. destruct H as (_ & a & -> & Ha).
    exists (a :: w). split; [reflexivity|]. cbn. now rewrite Ha.
Qed.

(** The shape of every match of [reFileInfo]: group 1 is a non-empty word
    of digits and dots followed by [%], group 2 starts with a dot just
    after an opening parenthesis. *)
Lemma reFileInfo_shape (s : bytes) (c : caps) (s' : bytes) :
  search reFileInfo s = Some (c, s') ->
  exists m0 a w e m3,
    c = [m0; (a :: w) ++ B "%"; "."%char :: e; m3]
    /\ forallb digit_or_dot (a :: w) = true
    /\ Occurs (B "(.") s.
Proof.
  intros H. apply search_sound in H. destruct H as (pre & s0 & -> & M).
  cbn [expr numSubexp reFileInfo repeat] in M.
  apply Matches_Cap_inv in M. destruct M as (c0 & M & ->).
  apply Matches_Cat_inv in M. destruct M as (s1 & c1 & M1 & M).
  apply Matches_Cap_inv in M1. destruct M1 as (c1' & M1 & ->).
  pose proof (Matches_cap_free _ _ _ _ _ M1 eq_refl) as ->.
  apply Matches_Cat_inv in M1. destruct M1 as (t1 & d1 & M1 & Mp).
  apply Matches_Chr_inv in Mp. destruct Mp as (_ & x & -> & Hx).
  apply Ascii.eqb_eq in Hx. subst x.
  apply Matches_Cat_inv in M1. destruct M1 as (t0 & d0 & Ma & Mw).
  apply Matches_Chr_inv in Ma. destruct Ma as (_ & a & -> & Ha).
  apply Matches_star_class in Mw. destruct Mw as (w & -> & Hw).
  apply Matches_Cat_inv in M. destruct M as (s2 & c2 & M2 & M).
  pose proof (Matches_cap_free _ _ _ _ _ M2 eq_refl) as ->.
  apply Matches_prefix in M2. destruct M2 as (ws1 & ->).
  apply Matches_Cat_inv in M. destruct M as (s3 & c3 & M3 & M).
  apply Matches_Chr_inv in M3. destruct M3 as (-> & x & -> & Hx).
  apply Ascii.eqb_eq in Hx. subst x.
  apply Matches_Cat_inv in M. destruct M as (s4 & c4 & M4 & M).
  apply Matches_Cap_inv in M4. destruct M4 as (c4' & M4 & ->).
  pose proof (Matches_cap_free _ _ _ _ _ M4 eq_refl) as ->.
  apply Matches_Cat_inv in M4. destruct M4 as (t4 & d4 & Md & Me).
  apply Matches_Chr_inv in Md. destruct Md as (_ & x & -> & Hx).
  apply Ascii.eqb_eq in Hx. subst x.
  apply Matches_prefix in Me. destruct Me as (e & ->).
  apply Matches_Cat_inv in M. destruct M as (s5 & c5 & M5 & M).
  pose proof (Matches_cap_free _ _ _ _ _ M5 eq_refl) as ->.
  apply Matches_Cat_inv in M. destruct M as (s6 & c6 & M6 & M).
  pose proof (Matches_cap_free _ _ _ _ _ M6 eq_refl) as ->.
  apply Matches_Cat_inv in M. destruct M as (s7 & c7 & M7 & M).
  apply Matches_Cap_inv in M7. destruct M7 as (c7' & M7 & ->).
  pose proof (Matches_cap_free _ _ _ _ _ M7 eq_refl) as ->.
  pose proof (Matches_cap_free _ _ _ _ _ M eq_refl) as ->.
  set (tl1 := ws1 ++ "("%char :: "."%char :: e ++ s4) in *.
  replace (a :: w ++ "%"%char :: tl1) with (((a :: w) ++ B "%") ++ tl1) in *
    by (cbn; rewrite <- app_assoc; reflexivity).
  change ("."%char :: e ++ s4) with (("."%char :: e) ++ s4) in *.
  rewrite !consumed_app in *.
  exists (consumed (((a :: w) ++ B "%") ++ tl1) s'), a, w, e, (consumed s6 s7).
  split; [|split].
  - reflexivity.
  - cbn. now rewrite Ha, Hw.
  - exists (pre ++ a :: w ++ "%"%char :: ws1), (e ++ s4).
    subst tl1. cbn. rewrite <- !app_assoc. cbn. rewrite <- !app_assoc.
    reflexivity.
Qed.

(** ** The record of a block *)

Lemma setDetail_header (f : FileType) (m : list bytes) :
  Extension (setDetail f m) = Extension f
  /\ Probability (setDetail f m) = Probability f
  /\ Name (setDetail f m) = Name f.
Proof.
  unfold setDetail.
  repeat match goal with
         | |- context [list_eq_dec ?d ?x ?y] => destruct (list_eq_dec d x y)
         end; cbn; auto.
Qed.

Lemma fold_setDetail_header (ms : list (list bytes)) (f : FileType) :
  Extension (fold_left setDetail ms f) = Extension f
  /\ Probability (fold_left setDetail ms f) = Probability f
  /\ Name (fold_left setDetail ms f) = Name f.
Proof.
  revert f; induction ms as [|m ms IH]; intros f; cbn; [auto|].
  destruct (IH (setDetail f m)) as (-> & -> & ->). apply setDetail_header.
Qed.


Lemma lowerByte_ascii (a : ascii) : isASCII (lowerByte a) = isASCII a.
Proof. destruct a as [[] [] [] [] [] [] [] []]; reflexivity. Qed.


(** ** Scanning a word of a class *)

Lemma ltb_cons (a : ascii) (s : bytes) : (length s <? length (a :: s)) = true.
Proof. apply Nat.ltb_lt. cbn. lia. Qed.

Lemma ltb_app (w t : bytes) :
  w <> [] -> (length t <? length (w ++ t)) = true.
Proof.
  intros H. apply Nat.ltb_lt. rewrite length_app.
  destruct w; [contradiction | cbn; lia].
Qed.

Lemma star_class_stop g p t c (k : cont) :
  stops p t -> run (Star g (Chr p)) t c k = k t c.
Proof.
  intros H. rewrite run_Star. cbn zeta. cbn [run].
  destruct t as [|a t]; cbn in H.
  - destruct g; [reflexivity | now destruct (k [] c)].
  - rewrite H. destruct g; [reflexivity | now destruct (k (a :: t) c)].
Qed.

Lemma star_class_step g p a s c (k : cont) :
  p a = true ->
  run (Star g (Chr p)) (a :: s) c k
  = if g then match run (Star g (Chr p)) s c k with
              | Some x => Some x
              | None => k (a :: s) c
              end
    else match k (a :: s) c with
         | Some x => Some x
         | None => run (Star g (Chr p)) s c k
         end.
Proof.
  intros H. rewrite run_Star. cbn zeta. cbn [run]. now rewrite H, ltb_cons.
Qed.

(** A greedy star reads the whole word when what follows succeeds. *)
Lemma star_greedy_first p w t c (k : cont) x :
  forallb p w = true -> stops p t -> k t c = Some x ->
  run (Star true (Chr p)) (w ++ t) c k = Some x.
Proof.
  intros Hw Ht Hk. induction w as [|a w IH]; cbn [app].
  - now rewrite star_class_stop.
  - cbn in Hw. apply andb_true_iff in Hw. destruct Hw as [Ha Hw].
    rewrite star_class_step by exact Ha. now rewrite IH.
Qed.

(** A greedy star gives nothing back to a continuation that cannot start
    with a byte of the class. *)
Lemma star_greedy_reject p w t c (k : cont) :
  forallb p w = true -> stops p t ->
  (forall a s, p a = true -> k (a :: s) c = None) ->
  run (Star true (Chr p)) (w ++ t) c k = k t c.
Proof.
  intros Hw Ht Hk. induction w as [|a w IH]; cbn [app].
  - now rewrite star_class_stop.
  - cbn in Hw. apply andb_true_iff in Hw. destruct Hw as [Ha Hw].
    rewrite star_class_step by exact Ha. rewrite IH by exact Hw.
    destruct (k t c); [reflexivity | now apply Hk].
Qed.

Lemma star_lazy_first p s c (k : cont) x :
  k s c = Some x -> run (Star false (Chr p)) s c k = Some x.
Proof.
  intros Hk. rewrite run_Star. cbn zeta. now rewrite Hk.
Qed.

(** A lazy star moves over a word at no position of which the continuation
    succeeds. *)
Lemma star_lazy_skip p w t c (k : cont) :
  forallb p w = true ->
  (forall w1 a w2, w = w1 ++ a :: w2 -> k (a :: w2 ++ t) c = None) ->
  run (Star false (Chr p)) (w ++ t) c k = run (Star false (Chr p)) t c k.
Proof.
  induction w as [|a w IH]; intros Hw Hk; cbn [app]; [reflexivity|].
  cbn in Hw. apply andb_true_iff in Hw. destruct Hw as [Ha Hw].
  rewrite star_class_step by exact Ha.
  rewrite (Hk [] a w eq_refl). apply IH; [exact Hw|].
  intros w1 b w2 ->. apply (Hk (a :: w1) b w2). reflexivity.
Qed.

Lemma plus_class_fail g p t c (k : cont) :
  stops p t -> run (Plus g (Chr p)) t c k = None.
Proof.
  intros H. cbn [Plus run]. destruct t as [|a t]; [reflexivity|].
  cbn in H. now rewrite H.
Qed.

Lemma plus_greedy_first p w t c (k : cont) x :
  w <> [] -> forallb p w = true -> stops p t -> k t c = Some x ->
  run (Plus true (Chr p)) (w ++ t) c k = Some x.
Proof.
  intros Hne Hw Ht Hk. destruct w as [|a w]; [contradiction|].
  cbn in Hw. apply andb_true_iff in Hw. destruct Hw as [Ha Hw].
  change (run (Plus true (Chr p)) ((a :: w) ++ t) c k)
    with (if p a then run (Star true (Chr p)) (w ++ t) c k else None).
  rewrite Ha. now apply star_greedy_first.
Qed.

Lemma plus_greedy_reject p w t c (k : cont) :
  w <> [] -> forallb p w = true -> stops p t ->
  (forall a s, p a = true -> k (a :: s) c = None) ->
  run (Plus true (Chr p)) (w ++ t) c k = k t c.
Proof.
  intros Hne Hw Ht Hk. destruct w as [|a w]; [contradiction|].
  cbn in Hw. apply andb_true_iff in Hw. destruct Hw as [Ha Hw].
  change (run (Plus true (Chr p)) ((a :: w) ++ t) c k)
    with (if p a then run (Star true (Chr p)) (w ++ t) c k else None).
  rewrite Ha. now apply star_greedy_reject.
Qed.

(** ** Bytes and classes *)

Ltac each_byte a :=
  destruct a as [[] [] [] [] [] [] [] []]; vm_compute;
  try reflexivity; try discriminate; try (intros; discriminate).

Lemma space_not_lparen a : space a = true -> byte "(" a = false.
Proof. each_byte a. Qed.

Lemma not_paren_not_rparen a : not_paren a = true -> byte ")" a = false.
Proof. each_byte a. Qed.

Lemma digit_or_dot_not_percent a : digit_or_dot a = true -> byte "%" a = false.
Proof. each_byte a. Qed.

Lemma blank_space a : blank a = true -> space a = true.
Proof. each_byte a. Qed.

Lemma blank_not_LF a : blank a = true -> Ascii.eqb a LF = false.
Proof. each_byte a. Qed.

Lemma any_not_LF a : any a = true -> Ascii.eqb a LF = false.
Proof. each_byte a. Qed.

Lemma forallb_blank_space w : forallb blank w = true -> forallb space w = true.
Proof.
  intros H. rewrite forallb_forall in *. intros a Ha. apply blank_space, H, Ha.
Qed.

(** ** Qualifier groups *)

Lemma nonempty_true (w : bytes) : nonempty w = true -> w <> [].
Proof. destruct w; [discriminate | discriminate]. Qed.

Lemma run_Cat r1 r2 s c (k : cont) :
  run (Cat r1 r2) s c k = run r1 s c (fun s' c' => run r2 s' c' k).
Proof. reflexivity. Qed.

Lemma run_Chr_hit p a s c (k : cont) :
  p a = true -> run (Chr p) (a :: s) c k = k s c.
Proof. intros H. cbn [run]. now rewrite H. Qed.

Lemma run_Chr_miss p a s c (k : cont) :
  p a = false -> run (Chr p) (a :: s) c k = None.
Proof. intros H. cbn [run]. now rewrite H. Qed.

Lemma run_Alt r1 r2 s c (k : cont) :
  run (Alt r1 r2) s c k
  = match run r1 s c k with Some x => Some x | None => run r2 s c k end.
Proof. reflexivity. Qed.

Lemma run_Eps s c (k : cont) : run Eps s c k = k s c.
Proof. reflexivity. Qed.

(** [paren_group] reads a well-formed qualifier in exactly one way. *)
Lemma paren_group_exact (q : qualifier) (t : bytes) (c : caps) (k : cont) :
  qualifier_ok q = true ->
  run paren_group (render_qualifier q ++ t) c k = k t c.
Proof.
  unfold qualifier_ok, render_qualifier. intros H.
  apply andb_true_iff in H. destruct H as [H Htext].
  apply andb_true_iff in H. destruct H as [H Hne].
  apply andb_true_iff in H. destruct H as [Hsp Hblank].
  unfold paren_group. rewrite run_Cat, <- app_assoc.
  rewrite plus_greedy_reject.
  - cbn [app]. rewrite run_Cat, run_Chr_hit by reflexivity.
    rewrite run_Cat, <- app_assoc. rewrite plus_greedy_reject.
    + cbn [app]. now rewrite run_Chr_hit by reflexivity.
    + now apply nonempty_true.
    + rewrite forallb_forall in *. intros a Ha. specialize (Htext a Ha).
      now apply andb_true_iff in Htext.
    + reflexivity.
    + intros a s Ha. apply run_Chr_miss. now apply not_paren_not_rparen.
  - now apply nonempty_true.
  - now apply forallb_blank_space.
  - reflexivity.
  - intros a s Ha. rewrite run_Cat. apply run_Chr_miss.
    now apply space_not_lparen.
Qed.

Lemma spaces_then_lparen_fail (s : bytes) (c : caps) (k : cont) :
  k [] c = None ->
  (forall a t, byte "(" a = false -> k (a :: t) c = None) ->
  opens_group_after s = false ->
  run (Star true (Chr space)) s c k = None.
Proof.
  intros Hnil Hk. induction s as [|a s IH]; cbn [opens_group_after]; intros H.
  - now rewrite star_class_stop.
  - destruct (space a) eqn:Ha.
    + rewrite star_class_step by exact Ha. rewrite IH by exact H.
      apply Hk. now apply space_not_lparen.
    + rewrite star_class_stop by exact Ha. now apply Hk.
Qed.

(** [paren_group] fails where no group opens. *)
Lemma paren_group_fail (s : bytes) (c : caps) (k : cont) :
  opens_group s = false -> run paren_group s c k = None.
Proof.
  unfold paren_group. rewrite run_Cat. destruct s as [|a s]; cbn [opens_group].
  - intros _. now apply plus_class_fail.
  - destruct (space a) eqn:Ha; cbn [andb]; intros H.
    + unfold Plus. rewrite run_Cat, run_Chr_hit by exact Ha.
      apply spaces_then_lparen_fail; [reflexivity | | exact H].
      intros b t Hb. rewrite run_Cat. now apply run_Chr_miss.
    + now apply plus_class_fail.
Qed.

Lemma opens_group_after_head (s : bytes) :
  opens_group_after s = false -> opens_group s = false.
Proof.
  destruct s as [|a s]; cbn; [reflexivity|].
  destruct (space a); [trivial | reflexivity].
Qed.

Lemma last_app_cons {A : Type} (l1 : list A) (a : A) (l2 : list A) (d : A) :
  last (l1 ++ a :: l2) d = last (a :: l2) d.
Proof.
  induction l1 as [|x l1 IH]; [reflexivity|].
  cbn [app]. rewrite <- IH. cbn. now destruct (l1 ++ a :: l2) eqn:E;
    [destruct l1; discriminate|].
Qed.

Lemma closed_word_no_group (b t : bytes) :
  b <> [] ->
  forallb (fun a => any a && negb (byte "(" a)) b = true ->
  space (last b " "%char) = false ->
  opens_group_after (b ++ t) = false.
Proof.
  induction b as [|x b IH]; intros Hne Hall Hlast; [contradiction|].
  cbn [forallb] in Hall. apply andb_true_iff in Hall. destruct Hall as [Hx Hall].
  apply andb_true_iff in Hx. destruct Hx as [_ Hx].
  apply negb_true_iff in Hx. unfold byte in Hx.
  cbn [app opens_group_after]. destruct b as [|y b].
  - cbn in Hlast. now rewrite Hlast.
  - destruct (space x); [|exact Hx].
    apply IH; [discriminate | exact Hall | exact Hlast].
Qed.

(** Inside the base of a well-formed name no group opens and no line
    ends. *)
Lemma base_inside (b w1 : bytes) (a : ascii) (w2 t : bytes) :
  base_ok b = true -> b = w1 ++ a :: w2 ->
  opens_group (a :: w2 ++ t) = false /\ Ascii.eqb a LF = false.
Proof.
  unfold base_ok. intros H ->.
  apply andb_true_iff in H. destruct H as [H Hlast].
  apply andb_true_iff in H. destruct H as [H _].
  apply andb_true_iff in H. destruct H as [_ Hall].
  apply negb_true_iff in Hlast. rewrite last_app_cons in Hlast.
  rewrite forallb_app in Hall. apply andb_true_iff in Hall.
  destruct Hall as [_ Hall]. split.
  - apply opens_group_after_head.
    apply (closed_word_no_group (a :: w2) t); [discriminate | exact Hall|exact Hlast].
  - cbn [forallb] in Hall. apply andb_true_iff in Hall. destruct Hall as [Ha _].
    apply andb_true_iff in Ha. destruct Ha as [Ha _]. now apply any_not_LF.
Qed.

Lemma run_Eol_pass t c (k : cont) : stops any t -> run Eol t c k = k t c.
Proof.
  destruct t as [|a t]; cbn [stops run]; [reflexivity|].
  unfold any. intros H. apply negb_false_iff in H. now rewrite H.
Qed.

Lemma run_Eol_fail a t c (k : cont) :
  Ascii.eqb a LF = false -> run Eol (a :: t) c k = None.
Proof. intros H. cbn [run]. now rewrite H. Qed.

Lemma run_Eol_inv t c (k : cont) x : run Eol t c k = Some x -> k t c = Some x.
Proof.
  destruct t as [|a t]; cbn [run]; [trivial|].
  destruct (Ascii.eqb a LF); [trivial | discriminate].
Qed.

Lemma render_qualifier_head (q : qualifier) :
  qualifier_ok q = true ->
  exists a r, render_qualifier q = a :: r /\ Ascii.eqb a LF = false.
Proof.
  unfold qualifier_ok, render_qualifier. intros H.
  apply andb_true_iff in H. destruct H as [H _].
  apply andb_true_iff in H. destruct H as [H _].
  apply andb_true_iff in H. destruct H as [Hne Hb].
  destruct (q_space q) as [|a w]; [discriminate|].
  cbn in Hb. apply andb_true_iff in Hb. destruct Hb as [Ha _].
  exists a, (w ++ "("%char :: q_text q ++ [")"%char]).
  split; [reflexivity | now apply blank_not_LF].
Qed.

(** At the end of a line [header_end] succeeds, with or without a group
    from the following line. *)
Lemma header_end_at_eol t c (k : cont) :
  stops any t -> (forall s, k s c <> None) ->
  exists s', run header_end t c k = k s' c.
Proof.
  intros Ht Hk. unfold header_end, Opt. rewrite run_Cat. cbn [run].
  destruct (run paren_group t c _) as [x|] eqn:Hg.
  - apply run_sound in Hg. destruct Hg as (s' & c' & M & Hx).
    apply Matches_cap_free in M; [|reflexivity]. subst c'.
    apply run_Eol_inv in Hx. exists s'. now rewrite Hx.
  - exists t. now apply run_Eol_pass.
Qed.

(** Before a further group [header_end] fails. *)
Lemma header_end_before_group q q' t c (k : cont) :
  qualifier_ok q = true -> qualifier_ok q' = true ->
  run header_end (render_qualifier q ++ render_qualifier q' ++ t) c k = None.
Proof.
  intros Hq Hq'. unfold header_end, Opt. rewrite run_Cat, run_Alt, run_Eps.
  rewrite paren_group_exact by exact Hq. cbv beta.
  destruct (render_qualifier_head q' Hq') as (a & r & -> & Ha).
  cbn [app]. rewrite run_Eol_fail by exact Ha.
  destruct (render_qualifier_head q Hq) as (b & r' & -> & Hb).
  cbn [app]. now apply run_Eol_fail.
Qed.

(** The lazy star over the qualifier groups stops before the last one:
    group 3 ends there. *)
Lemma star_qualifiers (todo : list qualifier) :
  forall (pre rest s3 : bytes) (c : caps) (k : cont),
    forallb qualifier_ok todo = true -> stops any rest ->
    (forall s c', k s c' <> None) ->
    s3 = pre ++ render_qualifiers todo ++ rest ->
    exists s',
      run (Star false paren_group) (render_qualifiers todo ++ rest) c
        (fun s1 c1 => run header_end s1 (set_cap 3 (consumed s3 s1) c1) k)
      = k s' (set_cap 3 (pre ++ render_qualifiers (removelast todo)) c).
Proof.
  induction todo as [|q todo IH]; intros pre rest s3 c k Hok Hrest Hk Hs3.
  - cbn [render_qualifiers map concat app removelast] in *.
    rewrite app_nil_r. rewrite run_Star. cbn zeta.
    subst s3. rewrite consumed_app.
    destruct (header_end_at_eol rest (set_cap 3 pre c) k Hrest) as (s' & Hs');
      [intros s; apply Hk|].
    exists s'. rewrite Hs'.
    destruct (k s' (set_cap 3 pre c)) eqn:E; [reflexivity|]. now apply Hk in E.
  - cbn [forallb] in Hok. apply andb_true_iff in Hok. destruct Hok as [Hq Hok].
    unfold render_qualifiers in *. cbn [map concat] in *.
    rewrite <- app_assoc in *. rewrite run_Star. cbn zeta.
    destruct todo as [|q' todo].
    + cbn [map concat app removelast] in *. rewrite app_nil_r. subst s3.
      rewrite consumed_app. exists rest.
      unfold header_end at 1, Opt. rewrite run_Cat, run_Alt.
      rewrite paren_group_exact by exact Hq. cbv beta.
      rewrite run_Eol_pass by exact Hrest.
      destruct (k rest (set_cap 3 pre c)) eqn:E; [reflexivity|].
      now apply Hk in E.
    + cbn [forallb] in Hok. pose proof Hok as Hok'.
      apply andb_true_iff in Hok'. destruct Hok' as [Hq' _].
      cbn [map concat] in *. rewrite <- app_assoc in *.
      rewrite header_end_before_group by assumption.
      rewrite paren_group_exact by exact Hq. cbv beta.
      rewrite ltb_app.
      2:{ destruct (render_qualifier_head q Hq) as (a & r & -> & _).
          discriminate. }
      destruct (IH (pre ++ render_qualifier q) rest s3 c k Hok Hrest Hk)
        as (s' & Hs').
      { rewrite Hs3. cbn [map concat]. now rewrite <- !app_assoc. }
      exists s'. cbn [map concat] in Hs'. rewrite <- app_assoc in Hs'.
      rewrite Hs'. cbn [removelast map concat]. now rewrite <- app_assoc.
Qed.

Lemma run_Cap i r s c (k : cont) :
  run (Cap i r) s c k
  = run r s c (fun s' c' => k s' (set_cap i (consumed s s') c')).
Proof. reflexivity. Qed.

(** Group 3 and the end of the pattern on a well-formed name: the lazy
    [.*?] reads the base, the lazy star every group but the last. *)
Lemma name_and_end (b : bytes) (qs : list qualifier) (rest : bytes)
    (c : caps) (k : cont) :
  base_ok b = true -> forallb qualifier_ok qs = true -> stops any rest ->
  (forall s c', k s c' <> None) ->
  exists s',
    run (Cat (Cap 3 (Cat (Star false (Chr any)) (Star false paren_group)))
             header_end)
        (b ++ render_qualifiers qs ++ rest) c k
    = k s' (set_cap 3 (b ++ render_qualifiers (removelast qs)) c).
Proof.
  intros Hb Hqs Hrest Hk.
  destruct (star_qualifiers qs b rest (b ++ render_qualifiers qs ++ rest)
              c k Hqs Hrest Hk eq_refl) as (s' & Hs').
  exists s'. rewrite run_Cat, run_Cap, run_Cat. cbv beta.
  rewrite star_lazy_skip.
  - destruct (k s' _) as [x|] eqn:E; [|now apply Hk in E].
    apply star_lazy_first. exact Hs'.
  - unfold base_ok in Hb. apply andb_true_iff in Hb. destruct Hb as [Hb _].
    apply andb_true_iff in Hb. destruct Hb as [Hb _].
    apply andb_true_iff in Hb. destruct Hb as [_ Hb].
    rewrite forallb_forall in *. intros a Ha. specialize (Hb a Ha).
    now apply andb_true_iff in Hb.
  - intros w1 a w2 Hsplit.
    destruct (base_inside b w1 a w2 (render_qualifiers qs ++ rest) Hb Hsplit)
      as [Hg Ha].
    rewrite run_Star. cbv zeta.
    unfold header_end at 1, Opt. rewrite run_Cat, run_Alt, run_Eps.
    rewrite !paren_group_fail by exact Hg.
    now rewrite run_Eol_fail by exact Ha.
Qed.

Lemma forallb_and_l {A} (f g : A -> bool) l :
  forallb (fun a => f a && g a) l = true -> forallb f l = true.
Proof.
  rewrite !forallb_forall. intros H a Ha. specialize (H a Ha).
  now apply andb_true_iff in H.
Qed.

Lemma forallb_and_r {A} (f g : A -> bool) l :
  forallb (fun a => f a && g a) l = true -> forallb g l = true.
Proof.
  rewrite !forallb_forall. intros H a Ha. specialize (H a Ha).
  now apply andb_true_iff in H.
Qed.

(** [reFileInfo] on a well-formed header, from the start of the header:
    group 1 is [P%], group 2 is [E], group 3 is the name without its last
    qualifier group. *)
Lemma reFileInfo_header (h : header) (rest : bytes) :
  header_ok h = true -> stops any rest ->
  exists m0 s',
    run (Cap 0 (expr reFileInfo)) (header_line h ++ rest)
        (repeat [] (S (numSubexp reFileInfo))) accept
    = Some ([m0; h_prob h ++ B "%"; h_ext h; name_less_last_group h], s').
Proof.
  unfold header_ok. intros Hok Hrest.
  repeat match type of Hok with
         | (_ && _) = true =>
             let H := fresh "H" in
             apply andb_true_iff in Hok; destruct Hok as [Hok H]
         end.
  rename Hok into HP1, H6 into HP2, H5 into HS1, H4 into HS1b, H3 into HE,
    H2 into HS2, H1 into HS2b, H0 into HB, H into HQ.
  destruct (h_ext h) as [|d e] eqn:Hext; [discriminate|].
  cbn [ext_ok] in HE. apply andb_true_iff in HE. destruct HE as [Hd He].
  apply Ascii.eqb_eq in Hd. subst d.
  unfold name_less_last_group, header_line, header_name. rewrite Hext.
  set (s0 := (_ ++ _) ++ rest).
  set (k0 := fun s' c' => accept s' (set_cap 0 (consumed s0 s') c')).
  set (c2 := [[]; h_prob h ++ B "%"; "."%char :: e; []]).
  destruct (name_and_end (h_base h) (h_quals h) rest c2 k0 HB HQ Hrest)
    as (s' & Htail); [discriminate|].
  exists (consumed s0 s'), s'.
  set (T3 := h_space2 h ++ h_base h ++ render_qualifiers (h_quals h) ++ rest).
  set (T2 := "."%char :: e ++ ")"%char :: T3).
  set (T1 := h_space1 h ++ "("%char :: T2).
  assert (Hs0 : s0 = h_prob h ++ "%"%char :: T1).
  { subst s0 T1 T2 T3. repeat (rewrite <- app_assoc; cbn [app]). reflexivity. }
  rewrite run_Cap. fold k0. cbn [expr reFileInfo numSubexp repeat].
  rewrite Hs0.
  rewrite run_Cat, run_Cap, run_Cat. cbv beta.
  rewrite plus_greedy_reject;
    [ | now apply nonempty_true | exact HP2 | reflexivity
      | intros a s Ha; apply run_Chr_miss;
        now apply digit_or_dot_not_percent ].
  rewrite run_Chr_hit by reflexivity.
  replace (consumed (h_prob h ++ "%"%char :: T1) T1) with (h_prob h ++ B "%")
    by (symmetry; rewrite <- (consumed_app (h_prob h ++ B "%") T1) at 1;
        now rewrite <- app_assoc).
  cbn [set_cap]. unfold T1 at 1.
  rewrite run_Cat.
  rewrite plus_greedy_reject;
    [ | now apply nonempty_true | now apply forallb_blank_space | reflexivity
      | intros a s Ha; rewrite run_Cat; apply run_Chr_miss;
        now apply space_not_lparen ].
  rewrite run_Cat, run_Chr_hit by reflexivity. unfold T2 at 1.
  rewrite run_Cat, run_Cap, run_Cat, run_Chr_hit by reflexivity. cbv beta.
  rewrite star_lazy_skip.
  - apply star_lazy_first. fold T2.
    replace (consumed T2 (")"%char :: T3)) with ("."%char :: e)
      by (symmetry; apply (consumed_app ("."%char :: e) (")"%char :: T3))).
    cbn [set_cap]. fold c2.
    rewrite run_Cat, run_Chr_hit by reflexivity.
    rewrite run_Cat. unfold T3.
    rewrite plus_greedy_first with (x := (set_cap 0 (consumed s0 s')
        (set_cap 3 (h_base h ++ render_qualifiers (removelast (h_quals h))) c2),
        s')).
    + rewrite <- Hs0. reflexivity.
    + now apply nonempty_true.
    + now apply forallb_blank_space.
    + unfold base_ok in HB.
      repeat match type of HB with
             | (_ && _) = true =>
                 let H := fresh "H" in
                 apply andb_true_iff in HB; destruct HB as [HB H]
             end.
      destruct (h_base h) as [|b0 bs]; [discriminate|].
      cbn [app stops]. cbn [hd] in H0. now apply negb_true_iff in H0.
    + exact Htail.
  - now apply forallb_and_l in He.
  - intros w1 a w2 Hsplit. apply forallb_and_r in He.
    rewrite forallb_forall in He.
    assert (Ha : negb (byte ")" a) = true).
    { apply He. rewrite Hsplit. apply in_or_app. right. now left. }
    apply negb_true_iff in Ha.
    rewrite run_Cat. now apply run_Chr_miss.
Qed.

(** ** The leftmost match *)

Lemma search_skip (re : Regexp) (pre t : bytes) :
  (forall w1 a w2, pre = w1 ++ a :: w2 ->
     run (Cap 0 (expr re)) (a :: w2 ++ t) (repeat [] (S (numSubexp re))) accept
     = None) ->
  search re (pre ++ t) = search re t.
Proof.
  induction pre as [|a pre IH]; intros H; [reflexivity|].
  cbn [app search]. rewrite (H [] a pre eq_refl). apply IH.
  intros w1 b w2 ->. apply (H (a :: w1) b w2). reflexivity.
Qed.

Lemma search_here (re : Regexp) (s : bytes) x :
  run (Cap 0 (expr re)) s (repeat [] (S (numSubexp re))) accept = Some x ->
  search re s = Some x.
Proof. intros H. destruct s; cbn [search]; now rewrite H. Qed.

Lemma reFileInfo_needs_digit (a : ascii) (s : bytes) (c : caps) (k : cont) :
  digit_or_dot a = false -> run (Cap 0 (expr reFileInfo)) (a :: s) c k = None.
Proof.
  intros H. rewrite run_Cap. cbn [expr reFileInfo].
  rewrite run_Cat, run_Cap, run_Cat. now apply plus_class_fail.
Qed.

(** [FindStringSubmatch] on a block that starts, after text without digit
    or dot, with a well-formed header. *)
Lemma FindStringSubmatch_header (indent : bytes) (h : header) (rest : bytes) :
  forallb (fun a => negb (digit_or_dot a)) indent = true ->
  header_ok h = true -> stops any rest ->
  exists m0,
    FindStringSubmatch reFileInfo (indent ++ header_line h ++ rest)
    = [m0; h_prob h ++ B "%"; h_ext h; name_less_last_group h].
Proof.
  intros Hi Hh Hrest. unfold FindStringSubmatch.
  rewrite search_skip.
  - destruct (reFileInfo_header h rest Hh Hrest) as (m0 & s' & H).
    exists m0. now rewrite (search_here _ _ _ H).
  - intros w1 a w2 ->. apply reFileInfo_needs_digit.
    rewrite forallb_app in Hi. apply andb_true_iff in Hi. destruct Hi as [_ Hi].
    cbn in Hi. apply andb_true_iff in Hi. destruct Hi as [Ha _].
    now apply negb_true_iff in Ha.
Qed.

(** ** Stripping the probability field *)

Lemma replace_percent (w : bytes) :
  forallb digit_or_dot w = true -> ReplaceAll (w ++ B "%") (B "%") [] = w.
Proof.
  intros H. cbn [ReplaceAll B list_ascii_of_string].
  induction w as [|a w IH]; [reflexivity|].
  cbn [forallb] in H. apply andb_true_iff in H. destruct H as [Ha Hw].
  cbn [app replace_from HasPrefix].
  apply digit_or_dot_not_percent in Ha. unfold byte in Ha. rewrite Ha.
  cbn [andb]. now rewrite IH.
Qed.

Lemma digit_or_dot_plain a :
  digit_or_dot a = true -> isASCII a = true /\ asciiSpace a = false.
Proof. each_byte a. all: split; reflexivity. Qed.

Lemma TrimSpace_digits (F : bytes -> bytes) (w : bytes) :
  forallb digit_or_dot w = true -> TrimSpace F w = w.
Proof.
  intros H. unfold TrimSpace. destruct w as [|a w]; [reflexivity|].
  pose proof H as H'. cbn [forallb] in H'. apply andb_true_iff in H'.
  destruct H' as [Ha _]. apply digit_or_dot_plain in Ha. destruct Ha as [Ha1 Ha2].
  cbn [trimLeft]. rewrite Ha1, Ha2. cbn [negb].
  destruct (rev (a :: w)) as [|b r] eqn:Hr.
  - apply (f_equal (@rev ascii)) in Hr. rewrite rev_involutive in Hr.
    discriminate.
  - assert (Hb : digit_or_dot b = true).
    { rewrite forallb_forall in H. apply H. apply in_rev. rewrite Hr. now left. }
    apply digit_or_dot_plain in Hb. destruct Hb as [Hb1 Hb2].
    cbn [trimRight]. rewrite Hb1, Hb2. cbn [negb].
    rewrite <- Hr. apply rev_involutive.
Qed.

(** ** The keys of the detail lines *)

Lemma run_exactly (u s : bytes) (c : caps) (k : cont) :
  run (exactly u) s c k
  = match strip_prefix u s with Some s' => k s' c | None => None end.
Proof.
  revert s; induction u as [|x u IH]; intros s; [reflexivity|].
  cbn [exactly strip_prefix]. rewrite run_Cat. destruct s as [|a s]; [reflexivity|].
  unfold byte. cbn [run]. destruct (Ascii.eqb a x); [apply IH | reflexivity].
Qed.

(** A literal under [(?i)] fails where none of its spellings starts. *)
Lemma literal_i_fail (w s : bytes) (c : caps) (k : cont) :
  fold_prefix w s = false -> run (literal_i w) s c k = None.
Proof.
  revert s; induction w as [|x w IH]; intros s; cbn [fold_prefix literal_i];
    [discriminate|].
  intros H. apply orb_false_iff in H. destruct H as [H1 H2].
  rewrite run_Cat. unfold fold_atom.
  assert (Hchr : run (Chr (eq_fold x)) s c
                   (fun s' c' => run (literal_i w) s' c' k) = None).
  { destruct s as [|a s]; [reflexivity|]. cbn [run].
    destruct (eq_fold x a); [apply IH; exact H1 | reflexivity]. }
  destruct (fold_extra x) as [u|]; [|exact Hchr].
  rewrite run_Alt, Hchr, run_exactly.
  destruct (strip_prefix u s) as [s'|]; [apply IH; exact H2 | reflexivity].
Qed.

Lemma one_of_i_fail (s : bytes) (c : caps) (k : cont) :
  starts_key s = false -> run (one_of_i detail_keys) s c k = None.
Proof.
  unfold starts_key, detail_keys. cbn [existsb one_of_i]. intros H.
  repeat (apply orb_false_iff in H; destruct H as [?H H]).
  rewrite !run_Alt. now rewrite !literal_i_fail by assumption.
Qed.

(** [reFileDetails] matches only where a key starts. *)
Lemma reFileDetails_needs_key (s : bytes) (c : caps) (k : cont) :
  starts_key s = false -> run (Cap 0 (expr reFileDetails)) s c k = None.
Proof.
  intros H. rewrite run_Cap. cbn [expr reFileDetails].
  rewrite run_Cat, run_Cap. now apply one_of_i_fail.
Qed.

Lemma eq_fold_extra_miss (x a : ascii) (u s : bytes) :
  fold_extra x = Some u -> eq_fold x a = true -> strip_prefix u (a :: s) = None.
Proof.
  unfold fold_extra, eq_fold. intros Hu Ha. apply Ascii.eqb_eq in Ha.
  rewrite <- Ha in Hu. clear Ha x. revert Hu.
  destruct a as [[] [] [] [] [] [] [] []]; vm_compute;
    intros [= <-]; reflexivity || discriminate.
Qed.

(** A literal under [(?i)] reads any spelling in ASCII letters, in one way. *)
Lemma literal_i_spelling (w key t : bytes) (c : caps) (k : cont) :
  fold_eqb key w = true -> run (literal_i w) (key ++ t) c k = k t c.
Proof.
  revert key; induction w as [|x w IH]; intros [|a key] H; try discriminate.
  - reflexivity.
  - cbn [fold_eqb] in H. apply andb_true_iff in H. destruct H as [Ha H].
    cbn [literal_i app]. rewrite run_Cat. unfold fold_atom.
    destruct (fold_extra x) as [u|] eqn:Hu.
    + rewrite run_Alt, run_Chr_hit by exact Ha. rewrite (IH key H).
      destruct (k t c); [reflexivity|].
      rewrite run_exactly. now rewrite (eq_fold_extra_miss x a u _ Hu Ha).
    + rewrite run_Chr_hit by exact Ha. apply IH, H.
Qed.

Lemma eq_fold_ascii (y a : ascii) :
  eq_fold y a = true -> isASCII y = true -> isASCII a = true.
Proof.
  unfold eq_fold. intros H Hy. apply Ascii.eqb_eq in H.
  now rewrite <- lowerByte_ascii, H, lowerByte_ascii.
Qed.

Lemma fold_extra_not_ascii (x a : ascii) (u s : bytes) :
  fold_extra x = Some u -> isASCII a = true -> strip_prefix u (a :: s) = None.
Proof.
  unfold fold_extra. intros Hu Ha.
  destruct (Ascii.eqb (lowerByte x) "k");
    [|destruct (Ascii.eqb (lowerByte x) "s"); [|discriminate]];
    injection Hu as <-; revert Ha;
    destruct a as [[] [] [] [] [] [] [] []]; vm_compute;
    reflexivity || discriminate.
Qed.

(** Whether a key starts a text does not depend on the letter case of the
    text. *)
Lemma fold_prefix_spelling (w' : bytes) :
  forall key w t,
    forallb isASCII w = true -> fold_eqb key w = true ->
    fold_prefix w' (key ++ t) = fold_prefix w' (w ++ t).
Proof.
  induction w' as [|x w' IH]; intros key w t Hw H; [reflexivity|].
  destruct key as [|a key], w as [|y w]; try discriminate; [reflexivity|].
  cbn [fold_eqb] in H. apply andb_true_iff in H. destruct H as [Ha H].
  cbn [forallb] in Hw. apply andb_true_iff in Hw. destruct Hw as [Hy Hw].
  cbn [app fold_prefix]. rewrite (IH key w t Hw H).
  assert (E : eq_fold x a = eq_fold x y).
  { unfold eq_fold in *. apply Ascii.eqb_eq in Ha. now rewrite Ha. }
  rewrite E. destruct (fold_extra x) as [u|] eqn:Hu; [|reflexivity].
  rewrite (fold_extra_not_ascii x a u _ Hu (eq_fold_ascii y a Ha Hy)).
  now rewrite (fold_extra_not_ascii x y u _ Hu Hy).
Qed.

Ltac other_key H :=
  match type of H with
  | fold_eqb ?key ?w = true =>
      rewrite (fold_prefix_spelling _ key w _ eq_refl H); reflexivity
  end.

(** The alternation of the keys reads a key in any letter case, in one
    way. *)
Lemma one_of_i_spelling (key t : bytes) (c : caps) (k : cont) :
  existsb (fold_eqb key) detail_keys = true ->
  run (one_of_i detail_keys) (key ++ t) c k = k t c.
Proof.
  unfold detail_keys. cbn [existsb one_of_i]. rewrite orb_false_r. intros H.
  rewrite !run_Alt.
  repeat (apply orb_true_iff in H; destruct H as [H|H]).
  - rewrite (literal_i_spelling _ _ _ _ _ H). destruct (k t c); [reflexivity|].
    rewrite !literal_i_fail; [reflexivity | other_key H ..].
  - rewrite (literal_i_spelling (B "Related URL") _ _ _ _ H).
    rewrite (literal_i_fail (B "Mime type")) by other_key H.
    destruct (k t c); [reflexivity|].
    rewrite !literal_i_fail; [reflexivity | other_key H ..].
  - rewrite (literal_i_spelling (B "Definition") _ _ _ _ H).
    rewrite (literal_i_fail (B "Mime type")) by other_key H.
    rewrite (literal_i_fail (B "Related URL")) by other_key H.
    destruct (k t c); [reflexivity|].
    rewrite !literal_i_fail; [reflexivity | other_key H ..].
  - rewrite (literal_i_spelling (B "Remarks") _ _ _ _ H).
    rewrite (literal_i_fail (B "Mime type")) by other_key H.
    rewrite (literal_i_fail (B "Related URL")) by other_key H.
    rewrite (literal_i_fail (B "Definition")) by other_key H.
    reflexivity.
Qed.

(** ** Keys and line ends *)

Lemma strip_prefix_stop (u s rest : bytes) :
  forallb any u = true -> stops any rest ->
  strip_prefix u (s ++ rest)
  = match u with
    | [] => Some (s ++ rest)
    | _ :: _ => option_map (fun r => r ++ rest) (strip_prefix u s)
    end.
Proof.
  revert s; induction u as [|x u IH]; intros s Hu Hrest; [reflexivity|].
  cbn [forallb] in Hu. apply andb_true_iff in Hu. destruct Hu as [Hx Hu].
  destruct s as [|a s]; cbn [app strip_prefix].
  - destruct rest as [|b rest]; [reflexivity|]. cbn [stops] in Hrest.
    unfold any in Hx, Hrest. apply negb_false_iff, Ascii.eqb_eq in Hrest.
    subst b. apply negb_true_iff in Hx. rewrite Ascii.eqb_sym. now rewrite Hx.
  - destruct (Ascii.eqb a x); [|reflexivity].
    rewrite (IH s Hu Hrest). destruct u; reflexivity.
Qed.

Lemma fold_extra_plain (x : ascii) (u : bytes) :
  fold_extra x = Some u -> u <> [] /\ forallb any u = true.
Proof.
  unfold fold_extra.
  destruct (Ascii.eqb (lowerByte x) "k");
    [|destruct (Ascii.eqb (lowerByte x) "s"); [|discriminate]];
    intros [= <-]; split; (discriminate || reflexivity).
Qed.

(** A key without newline starts a text or not whatever follows the end of
    the line. *)
Lemma fold_prefix_stop (w : bytes) :
  forall s rest,
    forallb (fun x => negb (eq_fold x LF)) w = true -> stops any rest ->
    w <> [] ->
    fold_prefix w (s ++ rest) = fold_prefix w s.
Proof.
  induction w as [|x w IH]; intros s rest Hw Hrest Hne; [contradiction|].
  cbn [forallb] in Hw. apply andb_true_iff in Hw. destruct Hw as [Hx Hw].
  apply negb_true_iff in Hx.
  assert (Hrec : forall r, fold_prefix w (r ++ rest) = fold_prefix w r
                           \/ w = []).
  { intros r. destruct w as [|y w']; [now right|]. left.
    apply IH; [exact Hw | exact Hrest | discriminate]. }
  cbn [fold_prefix]. f_equal.
  - destruct s as [|a s]; cbn [app].
    + destruct rest as [|b rest]; [reflexivity|]. cbn [stops] in Hrest.
      unfold any in Hrest. apply negb_false_iff, Ascii.eqb_eq in Hrest.
      subst b. now rewrite Hx.
    + destruct (Hrec s) as [-> | ->]; reflexivity.
  - destruct (fold_extra x) as [u|] eqn:Hu; [|reflexivity].
    destruct (fold_extra_plain x u Hu) as [Hne' Hany].
    rewrite (strip_prefix_stop u s rest Hany Hrest).
    destruct u as [|u0 u]; [contradiction|].
    destruct (strip_prefix (u0 :: u) s) as [r|]; [|reflexivity].
    cbn [option_map]. destruct (Hrec r) as [-> | ->]; reflexivity.
Qed.

Lemma starts_key_stop (s rest : bytes) :
  stops any rest -> starts_key (s ++ rest) = starts_key s.
Proof.
  intros Hrest. unfold starts_key, detail_keys. cbn [existsb].
  now rewrite !fold_prefix_stop by (reflexivity || exact Hrest || discriminate).
Qed.

Lemma space_no_key (a : ascii) (s : bytes) :
  space a = true -> starts_key (a :: s) = false.
Proof.
  destruct a as [[] [] [] [] [] [] [] []]; vm_compute;
    reflexivity || discriminate.
Qed.

(** Inside a text in which no key occurs, no key starts, whatever follows
    the end of the line. *)
Lemma key_free_inside (text w1 : bytes) (a : ascii) (w2 rest : bytes) :
  key_free text = true -> stops any rest -> text = w1 ++ a :: w2 ->
  starts_key (a :: w2 ++ rest) = false.
Proof.
  intros H Hrest ->. induction w1 as [|b w1 IH].
  - cbn [app key_free] in H. apply andb_true_iff in H. destruct H as [H _].
    apply negb_true_iff in H.
    change (a :: w2 ++ rest) with ((a :: w2) ++ rest).
    now rewrite (starts_key_stop (a :: w2) rest Hrest).
  - cbn [app key_free] in H. apply andb_true_iff in H. destruct H as [_ H].
    now apply IH.
Qed.

Lemma key_free_join (pre text : bytes) :
  key_free pre = true -> key_free text = true ->
  key_free (pre ++ LF :: text) = true.
Proof.
  intros Hpre Htext. induction pre as [|a pre IH].
  - cbn [app key_free]. now rewrite space_no_key, Htext.
  - cbn [app key_free] in *. apply andb_true_iff in Hpre.
    destruct Hpre as [Ha Hpre]. rewrite (IH Hpre), andb_true_r.
    change (a :: pre ++ LF :: text) with ((a :: pre) ++ LF :: text).
    now rewrite starts_key_stop by reflexivity.
Qed.

(** ** The detail lines of a block *)

Lemma space_not_colon a : space a = true -> byte ":" a = false.
Proof. each_byte a. Qed.

(** [reFileDetails] at a key: it reads the key, the colon among blanks,
    and the value up to the end of the line. *)
Lemma key_line_match (key gap1 gap2 value rest : bytes) :
  existsb (fold_eqb key) detail_keys = true ->
  forallb blank gap1 = true -> forallb blank gap2 = true ->
  nonempty value = true -> forallb any value = true ->
  space (hd " "%char value) = false -> stops any rest ->
  run (Cap 0 (expr reFileDetails))
      (key ++ gap1 ++ ":"%char :: gap2 ++ value ++ rest)
      (repeat [] (S (numSubexp reFileDetails))) accept
  = Some ([key ++ gap1 ++ ":"%char :: gap2 ++ value; key; value], rest).
Proof.
  intros Hkey Hg1 Hg2 Hne Hval Hhd Hrest.
  set (T := gap1 ++ ":"%char :: gap2 ++ value ++ rest).
  assert (Hs0 : consumed (key ++ T) rest
                = key ++ gap1 ++ ":"%char :: gap2 ++ value).
  { rewrite <- (consumed_app (key ++ gap1 ++ ":"%char :: gap2 ++ value) rest).
    f_equal. subst T. repeat (rewrite <- app_assoc; cbn [app]). reflexivity. }
  rewrite run_Cap.
  set (k0 := fun s' c' => accept s' (set_cap 0 (consumed (key ++ T) s') c')).
  cbn [expr reFileDetails numSubexp repeat].
  rewrite run_Cat, run_Cap. rewrite one_of_i_spelling by exact Hkey.
  rewrite consumed_app. cbn [set_cap]. unfold T.
  rewrite run_Cat. rewrite star_greedy_reject;
    [ | now apply forallb_blank_space | reflexivity
      | intros a s Ha; rewrite run_Cat; apply run_Chr_miss;
        now apply space_not_colon ].
  rewrite run_Cat, run_Chr_hit by reflexivity.
  rewrite run_Cat.
  apply star_greedy_first.
  - now apply forallb_blank_space.
  - destruct value as [|v0 value]; [discriminate | exact Hhd].
  - rewrite run_Cat, run_Cap. rewrite star_lazy_skip.
    + apply star_lazy_first. rewrite consumed_app. cbn [set_cap].
      rewrite run_Eol_pass by exact Hrest. unfold k0, accept.
      rewrite Hs0. reflexivity.
    + exact Hval.
    + intros w1 a w2 Hsplit. apply run_Eol_fail. apply any_not_LF.
      rewrite forallb_forall in Hval. apply Hval. rewrite Hsplit.
      apply in_or_app. right. now left.
Qed.

Lemma stops_render_lines (ls : list detail_line) : stops any (render_lines ls).
Proof. destruct ls as [|l ls]; [exact I | reflexivity]. Qed.

(** The leftmost match of [reFileDetails] in the lines of a block, after a
    text in which no key occurs: the first line with a key. *)
Lemma search_lines (ls : list detail_line) :
  forall pre,
    key_free pre = true -> forallb line_ok ls = true ->
    search reFileDetails (pre ++ render_lines ls)
    = match next_match ls with
      | Some (m, ls') => Some (m, render_lines ls')
      | None => None
      end.
Proof.
  induction ls as [|l ls IH]; intros pre Hpre Hok.
  - cbn [render_lines map concat next_match].
    rewrite search_skip; [reflexivity|].
    intros w1 a w2 Hsplit. apply reFileDetails_needs_key.
    now apply (key_free_inside pre w1 a w2 [] Hpre I).
  - cbn [forallb] in Hok. apply andb_true_iff in Hok. destruct Hok as [Hl Hok].
    unfold render_lines. cbn [map concat]. fold (render_lines ls).
    destruct l as [indent key gap1 gap2 value | text];
      cbn [render_line next_match line_ok] in *.
    + repeat match type of Hl with
             | (_ && _) = true =>
                 let H := fresh "H" in
                 apply andb_true_iff in Hl; destruct Hl as [Hl H]
             end.
      apply negb_true_iff in H.
      rewrite search_skip.
      2:{ intros w1 a w2 Hsplit. apply reFileDetails_needs_key.
          now apply (key_free_inside pre w1 a w2 _ Hpre). }
      cbn [app].
      change (LF :: ((indent ++ key ++ gap1 ++ ":"%char :: gap2 ++ value)
                     ++ render_lines ls))
        with ([LF] ++ ((indent ++ key ++ gap1 ++ ":"%char :: gap2 ++ value)
                       ++ render_lines ls)).
      rewrite search_skip.
      2:{ intros w1 a w2 Hsplit. apply reFileDetails_needs_key.
          destruct w1 as [|b w1]; [injection Hsplit as <- <-|];
            [now apply space_no_key|].
          destruct w1; discriminate. }
      rewrite <- !app_assoc. rewrite search_skip.
      2:{ intros w1 a w2 Hsplit. apply reFileDetails_needs_key.
          apply space_no_key. apply blank_space.
          rewrite forallb_forall in Hl. apply Hl. rewrite Hsplit.
          apply in_or_app. right. now left. }
      cbn [app]. rewrite <- !app_assoc. cbn [app].
      apply search_here. fold (render_lines ls).
      apply key_line_match; try assumption. apply stops_render_lines.
    + apply andb_true_iff in Hl. destruct Hl as [Hany Hfree].
      change (pre ++ (LF :: text) ++ render_lines ls)
        with (pre ++ (LF :: text) ++ render_lines ls).
      rewrite app_assoc. apply IH; [|exact Hok].
      now apply key_free_join.
Qed.

(** All the matches of [reFileDetails] in the lines of a block: one for
    every line with a key, in the order of the lines. *)
Lemma allMatches_lines (ls : list detail_line) :
  forall pre n prev,
    key_free pre = true -> forallb line_ok ls = true ->
    length (pre ++ render_lines ls) < n ->
    allMatches reFileDetails n prev (pre ++ render_lines ls)
    = flat_map line_match ls.
Proof.
  induction ls as [|l ls IH]; intros pre n prev Hpre Hok Hn.
  - destruct n as [|n]; [lia|]. cbn [allMatches].
    now rewrite (search_lines [] pre Hpre Hok).
  - pose proof Hok as Hok'. cbn [forallb] in Hok'.
    apply andb_true_iff in Hok'. destruct Hok' as [Hl Hls].
    destruct l as [indent key gap1 gap2 value | text].
    + destruct n as [|n]; [lia|]. cbn [allMatches].
      rewrite (search_lines _ pre Hpre Hok). cbn [next_match].
      assert (Hlen : length (render_lines ls)
                     < length (pre ++ render_lines
                                 (KeyLine indent key gap1 gap2 value :: ls))).
      { unfold render_lines at 2. cbn [map concat]. fold (render_lines ls).
        rewrite !length_app. cbn [length]. lia. }
      apply Nat.ltb_lt in Hlen as Hlt. rewrite Hlt.
      cbn [flat_map line_match app]. f_equal.
      apply (IH [] n true eq_refl Hls). cbn [app]. lia.
    + cbn [line_ok] in Hl. apply andb_true_iff in Hl. destruct Hl as [_ Hfree].
      unfold render_lines in *. cbn [map concat render_line] in *.
      fold (render_lines ls) in *. cbn [flat_map line_match app].
      assert (E : pre ++ LF :: text ++ render_lines ls
                  = (pre ++ LF :: text) ++ render_lines ls)
        by now rewrite <- app_assoc.
      rewrite E. change (length ((pre ++ LF :: text) ++ render_lines ls) < n)
        in Hn || (cbn [app] in Hn; rewrite E in Hn).
      apply IH; [now apply key_free_join | exact Hls | exact Hn].
Qed.

Lemma FindAll_lines (pre : bytes) (ls : list detail_line) :
  key_free pre = true -> forallb line_ok ls = true ->
  FindAllStringSubmatch reFileDetails (pre ++ render_lines ls)
  = flat_map line_match ls.
Proof.
  intros Hpre Hok. unfold FindAllStringSubmatch.
  apply allMatches_lines; [exact Hpre | exact Hok | lia].
Qed.

(** ** Where no match of [reFileDetails] starts *)

Lemma blanks_colon_fail (R : regex) (k : cont) (s : bytes) :
  colon_next s = false ->
  forall c,
    run (Cat (Star true (Chr space)) (Cat (Chr (byte ":")) R)) s c k = None.
Proof.
  intros H c. rewrite run_Cat. revert H.
  induction s as [|a s IH]; cbn [colon_next]; intros H.
  - rewrite star_class_stop by exact I. cbv beta. rewrite run_Cat.
    reflexivity.
  - destruct (space a) eqn:Ha.
    + rewrite star_class_step by exact Ha. cbv iota. rewrite (IH H).
      cbv beta iota. rewrite run_Cat. apply run_Chr_miss.
      now apply space_not_colon.
    + rewrite star_class_stop by exact Ha. cbv beta. rewrite run_Cat.
      now apply run_Chr_miss.
Qed.

(** A literal under [(?i)] fails where each of its spellings is followed
    by a text the continuation rejects. *)
Lemma literal_i_fail_then (P : bytes -> bool) (k : cont) :
  (forall s c, P s = false -> k s c = None) ->
  forall w s c, fold_then P w s = false -> run (literal_i w) s c k = None.
Proof.
  intros Hk. induction w as [|x w IH]; intros s c;
    cbn [fold_then literal_i]; intros H.
  - rewrite run_Eps. now apply Hk.
  - apply orb_false_iff in H. destruct H as [H1 H2].
    rewrite run_Cat. unfold fold_atom.
    assert (Hchr : run (Chr (eq_fold x)) s c
                     (fun s' c' => run (literal_i w) s' c' k) = None).
    { destruct s as [|a s]; [reflexivity|]. cbn [run].
      destruct (eq_fold x a); [apply IH; exact H1 | reflexivity]. }
    destruct (fold_extra x) as [u|]; [|exact Hchr].
    rewrite run_Alt, Hchr, run_exactly.
    destruct (strip_prefix u s) as [s'|]; [apply IH; exact H2 | reflexivity].
Qed.

(** [reFileDetails] matches only where a key followed by [\s*:] starts. *)
Lemma reFileDetails_needs_detail (s : bytes) (c : caps) (k : cont) :
  starts_detail s = false -> run (Cap 0 (expr reFileDetails)) s c k = None.
Proof.
  intros H. rewrite run_Cap. cbn [expr reFileDetails].
  rewrite run_Cat, run_Cap.
  unfold starts_detail, detail_keys in H. cbn [existsb] in H.
  repeat (apply orb_false_iff in H; destruct H as [?H H]).
  unfold detail_keys. cbn [one_of_i]. rewrite !run_Alt.
  match goal with
  | |- context [run (literal_i _) s c ?K] =>
      assert (HK : forall s' c', colon_next s' = false -> K s' c' = None)
        by (intros s' c' Hc; cbv beta; now apply blanks_colon_fail)
  end.
  now rewrite !(literal_i_fail_then colon_next _ HK) by assumption.
Qed.

Lemma fold_then_prefix (P : bytes -> bool) (w : bytes) :
  forall s, fold_then P w s = true -> fold_prefix w s = true.
Proof.
  induction w as [|x w IH]; intros s; cbn [fold_then fold_prefix];
    [reflexivity|].
  intros H. apply orb_true_iff in H. apply orb_true_iff.
  destruct H as [H|H]; [left | right].
  - destruct s as [|a s]; [discriminate|].
    apply andb_true_iff in H. destruct H as [Ha H].
    apply andb_true_iff. split; [exact Ha | now apply IH].
  - destruct (fold_extra x) as [u|]; [|discriminate].
    destruct (strip_prefix u s) as [s'|]; [now apply IH | discriminate].
Qed.

(** Where a key followed by [\s*:] starts, a key starts. *)
Lemma starts_detail_key (s : bytes) :
  starts_detail s = true -> starts_key s = true.
Proof.
  unfold starts_detail, starts_key. intros H.
  apply existsb_exists in H. destruct H as (w & Hw & H).
  apply existsb_exists. exists w. split; [exact Hw|].
  now apply (fold_then_prefix colon_next).
Qed.

Lemma space_no_detail (a : ascii) (s : bytes) :
  space a = true -> starts_detail (a :: s) = false.
Proof.
  intros Ha. destruct (starts_detail (a :: s)) eqn:E; [|reflexivity].
  apply starts_detail_key in E. now rewrite space_no_key in E.
Qed.

Lemma detail_free_inside (text rest w1 : bytes) (a : ascii) (w2 : bytes) :
  detail_free text rest = true -> text = w1 ++ a :: w2 ->
  starts_detail (a :: w2 ++ rest) = false.
Proof.
  intros H ->. induction w1 as [|b w1 IH];
    cbn [app detail_free] in H; apply andb_true_iff in H;
    destruct H as [H1 H2].
  - now apply negb_true_iff in H1.
  - now apply IH.
Qed.

Lemma detail_free_app (a b rest : bytes) :
  detail_free (a ++ b) rest
  = detail_free a (b ++ rest) && detail_free b rest.
Proof.
  induction a as [|x a IH]; cbn [app detail_free]; [reflexivity|].
  now rewrite IH, <- app_assoc, andb_assoc.
Qed.

(** A text in which no key occurs is one in which no key followed by
    [\s*:] starts, whatever lines follow it. *)
Lemma key_free_detail_free (text rest : bytes) :
  key_free text = true -> stops any rest -> detail_free text rest = true.
Proof.
  intros H Hrest. induction text as [|a text IH]; [reflexivity|].
  cbn [key_free] in H. apply andb_true_iff in H. destruct H as [H1 H2].
  cbn [detail_free]. rewrite (IH H2), andb_true_r.
  apply negb_true_iff in H1. apply negb_true_iff.
  destruct (starts_detail ((a :: text) ++ rest)) eqn:E; [|reflexivity].
  apply starts_detail_key in E.
  rewrite (starts_key_stop (a :: text) rest Hrest) in E. congruence.
Qed.

Lemma render_lines_key (i key g1 g2 v : bytes) (ls : list detail_line) :
  render_lines (KeyLine i key g1 g2 v :: ls)
  = [LF] ++ i ++ key ++ g1 ++ ":"%char :: g2 ++ v ++ render_lines ls.
Proof.
  unfold render_lines. cbn [map concat render_line app]. f_equal.
  repeat (rewrite <- app_assoc; cbn [app]). reflexivity.
Qed.

Lemma render_lines_other (text : bytes) (ls : list detail_line) :
  render_lines (OtherLine text :: ls) = (LF :: text) ++ render_lines ls.
Proof. reflexivity. Qed.

(** The leftmost match of [reFileDetails] in the lines of a block, after a
    text in which no match starts: the first key line. *)
Lemma search_lines_ok (ls : list detail_line) :
  forall pre,
    detail_free pre (render_lines ls) = true -> lines_ok ls = true ->
    search reFileDetails (pre ++ render_lines ls)
    = match next_match ls with
      | Some (m, ls') => Some (m, render_lines ls')
      | None => None
      end.
Proof.
  induction ls as [|l ls IH]; intros pre Hpre Hok.
  - cbn [next_match]. rewrite search_skip; [reflexivity|].
    intros w1 a w2 Hsplit. apply reFileDetails_needs_detail.
    exact (detail_free_inside pre _ w1 a w2 Hpre Hsplit).
  - cbn [lines_ok] in Hok. apply andb_true_iff in Hok.
    destruct Hok as [Hl Hok].
    destruct l as [indent key gap1 gap2 value | text].
    + cbn [next_match line_ok] in *.
      repeat match type of Hl with
             | (_ && _) = true =>
                 let H := fresh "H" in
                 apply andb_true_iff in Hl; destruct Hl as [Hl H]
             end.
      apply negb_true_iff in H.
      rewrite search_skip.
      2:{ intros w1 a w2 Hsplit. apply reFileDetails_needs_detail.
          exact (detail_free_inside pre _ w1 a w2 Hpre Hsplit). }
      rewrite render_lines_key.
      rewrite search_skip.
      2:{ intros w1 a w2 Hsplit. apply reFileDetails_needs_detail.
          apply space_no_detail.
          destruct w1 as [|b w1]; [injection Hsplit as <- <-; reflexivity|].
          destruct w1; discriminate. }
      rewrite search_skip.
      2:{ intros w1 a w2 Hsplit. apply reFileDetails_needs_detail.
          apply space_no_detail. apply blank_space.
          rewrite forallb_forall in Hl. apply Hl. rewrite Hsplit.
          apply in_or_app. right. now left. }
      apply search_here.
      apply key_line_match; try assumption. apply stops_render_lines.
    + cbn [next_match]. apply andb_true_iff in Hl.
      destruct Hl as [Hany Hfree].
      rewrite render_lines_other in *. rewrite app_assoc.
      apply IH; [|exact Hok].
      rewrite detail_free_app, Hpre. cbn [andb detail_free].
      rewrite Hfree, andb_true_r. apply negb_true_iff.
      now apply space_no_detail.
Qed.

(** All the matches of [reFileDetails] in such lines: one for every key
    line, in the order of the lines. *)
Lemma allMatches_lines_ok (ls : list detail_line) :
  forall pre n prev,
    detail_free pre (render_lines ls) = true -> lines_ok ls = true ->
    length (pre ++ render_lines ls) < n ->
    allMatches reFileDetails n prev (pre ++ render_lines ls)
    = flat_map line_match ls.
Proof.
  induction ls as [|l ls IH]; intros pre n prev Hpre Hok Hn.
  - destruct n as [|n]; [lia|]. cbn [allMatches].
    now rewrite (search_lines_ok [] pre Hpre Hok).
  - pose proof Hok as Hok'. cbn [lines_ok] in Hok'.
    apply andb_true_iff in Hok'. destruct Hok' as [Hl Hls].
    destruct l as [indent key gap1 gap2 value | text].
    + destruct n as [|n]; [lia|]. cbn [allMatches].
      rewrite (search_lines_ok _ pre Hpre Hok). cbn [next_match].
      assert (Hlen : length (render_lines ls)
                     < length (pre ++ render_lines
                                 (KeyLine indent key gap1 gap2 value :: ls))).
      { rewrite render_lines_key. rewrite !length_app. cbn [length].
        rewrite !length_app. lia. }
      apply Nat.ltb_lt in Hlen as Hlt. rewrite Hlt.
      cbn [flat_map line_match app]. f_equal.
      apply (IH [] n true); [|exact Hls | cbn [app]; lia].
      reflexivity.
    + apply andb_true_iff in Hl. destruct Hl as [_ Hfree].
      cbn [flat_map line_match app].
      rewrite render_lines_other in *. rewrite app_assoc in *.
      apply IH; [|exact Hls | exact Hn].
      rewrite detail_free_app, Hpre. cbn [andb detail_free].
      rewrite Hfree, andb_true_r. apply negb_true_iff.
      now apply space_no_detail.
Qed.

Lemma FindAll_lines_ok (pre : bytes) (ls : list detail_line) :
  detail_free pre (render_lines ls) = true -> lines_ok ls = true ->
  FindAllStringSubmatch reFileDetails (pre ++ render_lines ls)
  = flat_map line_match ls.
Proof.
  intros Hpre Hok. unfold FindAllStringSubmatch.
  apply allMatches_lines_ok; [exact Hpre | exact Hok | lia].
Qed.

(** The lines of [line_ok] are lines of [lines_ok]. *)
Lemma line_ok_lines_ok (ls : list detail_line) :
  forallb line_ok ls = true -> lines_ok ls = true.
Proof.
  induction ls as [|l ls IH]; [reflexivity|].
  cbn [forallb lines_ok]. intros H. apply andb_true_iff in H.
  destruct H as [Hl Hls]. rewrite (IH Hls), andb_true_r.
  destruct l as [indent key gap1 gap2 value | text]; [exact Hl|].
  cbn [line_ok] in Hl. apply andb_true_iff in Hl. destruct Hl as [Hany Hfree].
  rewrite Hany. cbn [andb].
  apply key_free_detail_free; [exact Hfree | apply stops_render_lines].
Qed.

(** ** The switch on the key *)

(** One step of the loop over the matches: the field of the key that is
    spelled exactly is overwritten, the others are kept. *)
Lemma setDetail_field (K : bytes) (f : FileType) (m0 key value : bytes) :
  In K detail_keys ->
  field_of K (setDetail f [m0; key; value])
  = if list_eq_dec ascii_dec key K then value else field_of K f.
Proof.
  unfold detail_keys. cbn [In]. intros [<-|[<-|[<-|[<-|[]]]]];
    unfold setDetail, field_of; cbn [nth];
    repeat match goal with
           | |- context [list_eq_dec ascii_dec ?x ?y] =>
               destruct (list_eq_dec ascii_dec x y);
               try discriminate; try subst
           end;
    try reflexivity; try contradiction; try discriminate.
Qed.

Lemma fold_setDetail_lines (K : bytes) (ls : list detail_line) :
  In K detail_keys ->
  forall f,
    field_of K (fold_left setDetail (flat_map line_match ls) f)
    = match last_exact K ls with
      | Some v => v
      | None => field_of K f
      end.
Proof.
  intros HK. induction ls as [|l ls IH]; intros f; [reflexivity|].
  cbn [flat_map last_exact]. rewrite fold_left_app, IH.
  destruct (last_exact K ls); [reflexivity|].
  destruct l as [indent key gap1 gap2 value | text]; [|reflexivity].
  cbn [line_match fold_left]. rewrite setDetail_field by exact HK.
  now destruct (list_eq_dec ascii_dec key K).
Qed.

Lemma last_exact_app (K : bytes) (l1 l2 : list detail_line) :
  last_exact K (l1 ++ l2)
  = match last_exact K l2 with
    | Some v => Some v
    | None => last_exact K l1
    end.
Proof.
  induction l1 as [|l l1 IH]; cbn [app last_exact].
  - now destruct (last_exact K l2).
  - rewrite IH. now destruct (last_exact K l2).
Qed.

Lemma last_exact_other_key (K : bytes) (before after : list detail_line)
    (indent key gap1 gap2 value : bytes) :
  key <> K ->
  last_exact K (before ++ KeyLine indent key gap1 gap2 value :: after)
  = last_exact K (before ++ after).
Proof.
  intros H. rewrite !last_exact_app. cbn [last_exact].
  destruct (last_exact K after); [reflexivity|].
  now destruct (list_eq_dec ascii_dec key K).
Qed.

(** Two keys that differ only in letter case are the same key. *)
Lemma detail_keys_fold_distinct (K K' : bytes) :
  In K detail_keys -> In K' detail_keys -> fold_eqb K' K = true -> K' = K.
Proof.
  unfold detail_keys. cbn [In].
  intros [<-|[<-|[<-|[<-|[]]]]] [<-|[<-|[<-|[<-|[]]]]];
    vm_compute; intros; congruence.
Qed.

(** ** The records, the errors and the subprocess

    From here on the Unicode slow paths of the Go runtime, the remaining
    syntax of [strconv.ParseFloat], [os.Stat] and the subprocess are
    arbitrary. *)

Section Runtime.

Variable TrimFunc_IsSpace : bytes -> bytes.
Variable Map_ToLower : bytes -> bytes.
Variable ParseFloat_other : bytes -> option Q.
Variable Stat : bytes -> option os_error.
Variable CombinedOutput : Command -> bytes * option os_error * bool.

Local Abbreviation parse_result :=
  (parseResult TrimFunc_IsSpace Map_ToLower ParseFloat_other).
Local Abbreviation parse_output :=
  (parseOutput TrimFunc_IsSpace Map_ToLower ParseFloat_other).
Local Abbreviation field := (probability_field TrimFunc_IsSpace).
Local Abbreviation scan :=
  (Scan TrimFunc_IsSpace Map_ToLower ParseFloat_other Stat CombinedOutput).

Lemma parseResult_app (acc : list FileType) (block : bytes) :
  parse_result acc block = acc ++ parse_result [] block.
Proof.
  unfold parseResult.
  destruct (negb (length (FindStringSubmatch reFileInfo block) =? 4));
    [now rewrite app_nil_r|].
  match goal with
  | |- context [length ?x =? 0] => destruct (length x =? 0)
  end; [now rewrite app_nil_r|].
  match goal with
  | |- context [ParseFloat ?o ?x] => destruct (ParseFloat o x)
  end; [reflexivity | now rewrite app_nil_r].
Qed.

Lemma fold_parseResult (blocks : list bytes) (acc : list FileType) :
  fold_left parse_result blocks acc
  = acc ++ flat_map (parse_result []) blocks.
Proof.
  revert acc; induction blocks as [|b bs IH]; intros acc; cbn.
  - now rewrite app_nil_r.
  - rewrite IH, parseResult_app, app_assoc. reflexivity.
Qed.

(** C6: the example report of the specification (the detail line
    unindented, or indented by five spaces as TrID prints it) parses to
    exactly two records, in the order of the blocks: extension [.pdf],
    probability 85.50, name [Adobe Portable Document Format], mime type
    [application/pdf]; then extension [.ps], probability 10.00, name
    [PostScript]. *)
Theorem parseOutput_example :
  parse_output (example_report 0) = (example_records, None)
  /\ parse_output (example_report 5) = (example_records, None)
  /\ map Probability example_records
     = map Qred [(8550 # 100)%Q; (1000 # 100)%Q].
Proof.
  split; [|split]; vm_compute; reflexivity.
Qed.

(** Where a record comes from: its block matched [reFileInfo], the
    stripped group 1 parsed as a number, and the three header fields are
    that number, group 2 in lower case and group 3. *)
Lemma parseResult_inv (block : bytes) (r : FileType) :
  In r (parse_result [] block) ->
  exists c rest,
    search reFileInfo block = Some (c, rest)
    /\ ParseFloat ParseFloat_other (probability_field TrimFunc_IsSpace block)
       = Some (Probability r)
    /\ Extension r = ToLower Map_ToLower (nth 2 c [])
    /\ Name r = nth 3 c []
    /\ parse_result [] block = [r].
Proof.
  unfold parseResult, probability_field, FindStringSubmatch.
  destruct (search reFileInfo block) as [[c rest]|]; [|intros []].
  destruct (negb (length c =? 4)); [intros []|].
  match goal with
  | |- context [length ?x =? 0] => destruct (length x =? 0)
  end; [intros []|].
  match goal with
  | |- context [ParseFloat ?o ?x] => destruct (ParseFloat o x) as [p|]
  end; [|intros []].
  cbn [app In]. intros [<-|[]]. exists c, rest.
  match goal with
  | |- context [fold_left setDetail ?ms ?f] =>
      destruct (fold_setDetail_header ms f) as (-> & -> & ->)
  end.
  cbn. auto.
Qed.

(** The stripped probability field of a matching block is a non-empty
    word of digits and dots: the test for an empty field never fires, and
    [ParseFloat] is only asked about such words. *)
Lemma probability_field_digits (block : bytes) (c : caps) (rest : bytes) :
  search reFileInfo block = Some (c, rest) ->
  exists a w,
    field block = a :: w /\ forallb digit_or_dot (a :: w) = true.
Proof.
  intros H. unfold probability_field, FindStringSubmatch. rewrite H.
  apply reFileInfo_shape in H.
  destruct H as (m0 & a & w & e & m3 & -> & Hw & _).
  exists a, w. cbn [nth].
  now rewrite replace_percent, TrimSpace_digits by exact Hw.
Qed.

Lemma parseOutput_In (out : bytes) (r : FileType) :
  In r (fst (parse_output out)) ->
  exists block, In block (results out) /\ In r (parse_result [] block).
Proof.
  unfold parseOutput. cbn [fst]. rewrite fold_parseResult. cbn [app].
  rewrite in_flat_map. trivial.
Qed.


(** C5: [parseOutput] never returns an error.  Its records are those of
    the blocks, block by block and in their order; a block gives at most
    one record, and none when its header does not match [reFileInfo],
    when its stripped probability field is empty, or when that field does
    not parse as a floating-point number.  When no block matches the
    result is the empty sequence. *)
Theorem parseOutput_never_fails (out : bytes) :
  snd (parse_output out) = None
  /\ fst (parse_output out) = flat_map (parse_result []) (results out)
  /\ (forall block,
        length (parse_result [] block) <= 1
        /\ (FindStringSubmatch reFileInfo block = [] ->
            parse_result [] block = [])
        /\ (field block = [] -> parse_result [] block = [])
        /\ (ParseFloat ParseFloat_other (field block) = None ->
            parse_result [] block = []))
  /\ ((forall block, In block (results out) ->
         FindStringSubmatch reFileInfo block = []) ->
      parse_output out = ([], None)).
Proof.
  assert (Hnil : forall block,
             FindStringSubmatch reFileInfo block = [] ->
             parse_result [] block = []).
  { intros block H. unfold parseResult. now rewrite H. }
  split; [reflexivity|]. split; [|split].
  - unfold parseOutput. cbn [fst]. now rewrite fold_parseResult.
  - intros block. split; [|split; [|split]].
    + unfold parseResult.
      destruct (negb (length (FindStringSubmatch reFileInfo block) =? 4));
        [cbn; lia|].
      match goal with
      | |- context [length ?x =? 0] => destruct (length x =? 0)
      end; [cbn; lia|].
      match goal with
      | |- context [ParseFloat ?o ?x] => destruct (ParseFloat o x)
      end; cbn; lia.
    + apply Hnil.
    + intros H. unfold parseResult. fold (field block). rewrite H. cbn.
      now destruct (negb _).
    + intros H. unfold parseResult. fold (field block). rewrite H.
      destruct (negb _); [reflexivity|]. now destruct (length _ =? 0).
  - intros H. unfold parseOutput. rewrite fold_parseResult. cbn [app].
    f_equal. induction (results out) as [|b bs IH]; [reflexivity|].
    cbn [flat_map]. rewrite Hnil by (apply H; now left).
    apply IH. intros block Hb. apply H. now right.
Qed.

(** The record of a block that starts with a well-formed header. *)
Lemma parseResult_header (acc : list FileType) (indent : bytes) (h : header)
    (rest : bytes) (p : Q) :
  forallb (fun a => negb (digit_or_dot a)) indent = true ->
  header_ok h = true -> stops any rest ->
  ParseFloat ParseFloat_other (h_prob h) = Some p ->
  parse_result acc (indent ++ header_line h ++ rest)
  = acc ++ [ fold_left setDetail
               (FindAllStringSubmatch reFileDetails
                  (indent ++ header_line h ++ rest))
               {| Extension := ToLower Map_ToLower (h_ext h);
                  Probability := p;
                  Name := name_less_last_group h;
                  MimeType := []; RelatedURL := []; Remarks := [];
                  Definition_ := [] |} ].
Proof.
  intros Hi Hh Hrest Hp. unfold parseResult.
  destruct (FindStringSubmatch_header indent h rest Hi Hh Hrest) as (m0 & ->).
  cbn [length nth Nat.eqb negb].
  assert (HP : nonempty (h_prob h) = true
               /\ forallb digit_or_dot (h_prob h) = true).
  { unfold header_ok in Hh.
    repeat match type of Hh with
           | (_ && _) = true =>
               let H := fresh "H" in
               apply andb_true_iff in Hh; destruct Hh as [Hh H]
           end.
    now split. }
  destruct HP as [HP1 HP2].
  rewrite replace_percent, TrimSpace_digits by exact HP2.
  destruct (h_prob h) as [|a w] eqn:E; [discriminate|].
  cbn [length Nat.eqb]. now rewrite Hp.
Qed.

(** C1 (amended): a block that starts, after text without digit or dot,
    with a well-formed header ["P% (E) N"] whose [P] parses as a number
    yields one record: its probability is the value of [P], its extension
    is [E] in lower case, and its name is [N] without its last qualifier
    group (and the blanks before it); a name without qualifier group is
    kept whole. *)
Theorem parseOutput_header_fields (out indent : bytes) (h : header)
    (rest : bytes) (p : Q) :
  In (indent ++ header_line h ++ rest) (results out) ->
  forallb (fun a => negb (digit_or_dot a)) indent = true ->
  header_ok h = true -> stops any rest ->
  ParseFloat ParseFloat_other (h_prob h) = Some p ->
  exists r,
    In r (fst (parse_output out))
    /\ (forall acc,
          parse_result acc (indent ++ header_line h ++ rest) = acc ++ [r])
    /\ Probability r = p
    /\ Extension r = ToLower Map_ToLower (h_ext h)
    /\ Name r = h_base h ++ render_qualifiers (removelast (h_quals h))
    /\ (h_quals h = [] -> Name r = header_name h).
Proof.
  intros Hin Hi Hh Hrest Hp.
  eexists. split; [|split].
  - unfold parseOutput. cbn [fst]. rewrite fold_parseResult. cbn [app].
    apply in_flat_map. eexists. split; [exact Hin|].
    rewrite (parseResult_header [] indent h rest p Hi Hh Hrest Hp).
    now left.
  - intros acc. apply (parseResult_header acc indent h rest p Hi Hh Hrest Hp).
  - match goal with
    | |- context [fold_left setDetail ?ms ?f] =>
        destruct (fold_setDetail_header ms f) as (-> & -> & ->)
    end.
    cbn [Probability Extension Name].
    split; [reflexivity|]. split; [reflexivity|]. split; [reflexivity|].
    unfold header_name, name_less_last_group. intros Hq. now rewrite Hq.
Qed.

(** The record of a block made of a well-formed header and well-formed
    lines: each detail field holds the value of the last line whose key is
    spelled exactly, or nothing. *)
Lemma parseResult_block (indent : bytes) (h : header)
    (lines : list detail_line) (p : Q) :
  forallb (fun a => negb (digit_or_dot a)) indent = true ->
  header_ok h = true ->
  key_free (indent ++ header_line h) = true ->
  forallb line_ok lines = true ->
  ParseFloat ParseFloat_other (h_prob h) = Some p ->
  exists r,
    (forall acc,
        parse_result acc (indent ++ header_line h ++ render_lines lines)
        = acc ++ [r])
    /\ forall K, In K detail_keys ->
         field_of K r = match last_exact K lines with
                        | Some v => v
                        | None => []
                        end.
Proof.
  intros Hi Hh Hfree Hok Hp. eexists. split.
  - intros acc.
    apply (parseResult_header acc indent h (render_lines lines) p Hi Hh
             (stops_render_lines lines) Hp).
  - intros K HK. rewrite (app_assoc indent (header_line h)).
    rewrite (FindAll_lines _ lines Hfree Hok).
    rewrite (fold_setDetail_lines K lines HK).
    destruct (last_exact K lines); [reflexivity|].
    unfold field_of. cbn.
    repeat match goal with
           | |- context [list_eq_dec ascii_dec ?x ?y] =>
               destruct (list_eq_dec ascii_dec x y)
           end; reflexivity.
Qed.

(** The same of a block in whose header and other lines the letters of a
    key may occur, as long as no key followed by [\s*:] starts there. *)
Lemma parseResult_block_ok (indent : bytes) (h : header)
    (lines : list detail_line) (p : Q) :
  forallb (fun a => negb (digit_or_dot a)) indent = true ->
  header_ok h = true ->
  detail_free (indent ++ header_line h) (render_lines lines) = true ->
  lines_ok lines = true ->
  ParseFloat ParseFloat_other (h_prob h) = Some p ->
  exists r,
    (forall acc,
        parse_result acc (indent ++ header_line h ++ render_lines lines)
        = acc ++ [r])
    /\ forall K, In K detail_keys ->
         field_of K r = match last_exact K lines with
                        | Some v => v
                        | None => []
                        end.
Proof.
  intros Hi Hh Hfree Hok Hp. eexists. split.
  - intros acc.
    apply (parseResult_header acc indent h (render_lines lines) p Hi Hh
             (stops_render_lines lines) Hp).
  - intros K HK. rewrite (app_assoc indent (header_line h)).
    rewrite (FindAll_lines_ok _ lines Hfree Hok).
    rewrite (fold_setDetail_lines K lines HK).
    destruct (last_exact K lines); [reflexivity|].
    unfold field_of. cbn.
    repeat match goal with
           | |- context [list_eq_dec ascii_dec ?x ?y] =>
               destruct (list_eq_dec ascii_dec x y)
           end; reflexivity.
Qed.

Lemma parseOutput_block_In (out block : bytes) (r : FileType) :
  In block (results out) ->
  (forall acc, parse_result acc block = acc ++ [r]) ->
  In r (fst (parse_output out)).
Proof.
  intros Hin Hr. unfold parseOutput. cbn [fst].
  rewrite fold_parseResult. cbn [app]. apply in_flat_map.
  exists block. split; [exact Hin|]. rewrite (Hr []). now left.
Qed.

(** C7 (amended): take a block made of a well-formed header and of lines
    that are each either a key line (blanks, one of the four keys in some
    letter case, a colon among blanks, a non-empty value that does not
    start with a byte of [\s] and runs to the end of the line) or another
    line, and suppose that nowhere in the header or in those other lines a
    key, in any letter case, is followed by [\s*:], the white space read
    over the ends of lines.  The letters of a key may occur there
    otherwise.  Then every detail field of the record holds the value of
    the last line whose key is spelled exactly as the field's key, and is
    empty when there is no such line. *)
Theorem detail_lines_last_wins (out indent : bytes) (h : header)
    (lines : list detail_line) (p : Q) :
  In (indent ++ header_line h ++ render_lines lines) (results out) ->
  forallb (fun a => negb (digit_or_dot a)) indent = true ->
  header_ok h = true ->
  detail_free (indent ++ header_line h) (render_lines lines) = true ->
  lines_ok lines = true ->
  ParseFloat ParseFloat_other (h_prob h) = Some p ->
  exists r,
    In r (fst (parse_output out))
    /\ (forall acc,
          parse_result acc (indent ++ header_line h ++ render_lines lines)
          = acc ++ [r])
    /\ (forall K, In K detail_keys ->
          field_of K r = match last_exact K lines with
                         | Some v => v
                         | None => []
                         end)
    /\ (forall K before i g1 g2 value after,
          In K detail_keys ->
          lines = before ++ KeyLine i K g1 g2 value :: after ->
          last_exact K after = None ->
          field_of K r = value).
Proof.
  intros Hin Hi Hh Hfree Hok Hp.
  destruct (parseResult_block_ok indent h lines p Hi Hh Hfree Hok Hp)
    as (r & Hr & Hfields).
  exists r. split; [|split; [|split]].
  - exact (parseOutput_block_In out _ r Hin Hr).
  - exact Hr.
  - exact Hfields.
  - intros K before i g1 g2 value after HK -> Hafter.
    rewrite (Hfields K HK), last_exact_app. cbn [last_exact].
    rewrite Hafter. now destruct (list_eq_dec ascii_dec K K).
Qed.

(** C10: in such a block, a key line whose key is one of the four keys
    only up to letter case is matched by [reFileDetails] (its match, key
    and value are among the submatches found), but the record is the one
    the block would give without that line; in particular the field of
    that key stays empty unless another line sets it. *)
Theorem miscased_key_not_attached (out indent : bytes) (h : header)
    (before after : list detail_line) (i key g1 g2 value K : bytes) (p : Q) :
  In (indent ++ header_line h
      ++ render_lines (before ++ KeyLine i key g1 g2 value :: after))
     (results out) ->
  forallb (fun a => negb (digit_or_dot a)) indent = true ->
  header_ok h = true ->
  key_free (indent ++ header_line h) = true ->
  forallb line_ok (before ++ KeyLine i key g1 g2 value :: after) = true ->
  ParseFloat ParseFloat_other (h_prob h) = Some p ->
  In K detail_keys -> fold_eqb key K = true -> key <> K ->
  In [key ++ g1 ++ ":"%char :: g2 ++ value; key; value]
     (FindAllStringSubmatch reFileDetails
        (indent ++ header_line h
         ++ render_lines (before ++ KeyLine i key g1 g2 value :: after)))
  /\ exists r,
       In r (fst (parse_output out))
       /\ (forall K', In K' detail_keys ->
             field_of K' r = match last_exact K' (before ++ after) with
                             | Some v => v
                             | None => []
                             end)
       /\ (last_exact K (before ++ after) = None -> field_of K r = []).
Proof.
  intros Hin Hi Hh Hfree Hok Hp HK Hfold Hne. split.
  - rewrite (app_assoc indent (header_line h)).
    rewrite (FindAll_lines _ _ Hfree Hok).
    apply in_flat_map. exists (KeyLine i key g1 g2 value).
    split; [apply in_or_app; right; now left | now left].
  - destruct (parseResult_block indent h _ p Hi Hh Hfree Hok Hp)
      as (r & Hr & Hfields).
    assert (Hall : forall K', In K' detail_keys ->
              field_of K' r = match last_exact K' (before ++ after) with
                              | Some v => v
                              | None => []
                              end).
    { intros K' HK'. rewrite (Hfields K' HK').
      rewrite last_exact_other_key; [reflexivity|].
      intros ->. apply Hne. now apply detail_keys_fold_distinct. }
    exists r. split; [|split].
    + exact (parseOutput_block_In out _ r Hin Hr).
    + exact Hall.
    + intros Hnone. now rewrite (Hall K HK), Hnone.
Qed.

(** C3: [Scan] validates its inputs in a fixed order and the first
    failing check decides: an empty path gives the no-file-specified
    error whatever the other inputs are; otherwise a failing [os.Stat]
    gives file-not-found when the file does not exist and the error of
    [os.Stat] itself when it fails for another reason, whatever the match
    count is; otherwise a match count below 1 gives the invalid-match-count
    error.  In all these cases no subprocess has been started. *)
Theorem Scan_validation_order (t : Options) (filePath : bytes) (n : Z) :
  (filePath = [] ->
     scan t filePath n = ([], (None, Some ErrNoFileSpecified)))
  /\ (forall e, filePath <> [] -> Stat filePath = Some e ->
        notExist e = true ->
        scan t filePath n = ([], (None, Some ErrFileNotFound)))
  /\ (forall e, filePath <> [] -> Stat filePath = Some e ->
        notExist e = false ->
        scan t filePath n = ([], (None, Some (ErrOS e))))
  /\ (filePath <> [] -> Stat filePath = None -> (n < 1)%Z ->
        scan t filePath n = ([], (None, Some ErrNumberOfMatches))).
Proof.
  unfold Scan. repeat split.
  - now intros ->.
  - intros e Hp Hs He. destruct filePath; [contradiction|].
    now rewrite Hs, He.
  - intros e Hp Hs He. destruct filePath; [contradiction|].
    now rewrite Hs, He.
  - intros Hp Hs Hn. destruct filePath; [contradiction|].
    rewrite Hs. apply Z.ltb_lt in Hn. now rewrite Hn.
Qed.

(** C4: a scan returns either a sequence of records and a nil error, or
    the nil slice and one error, never both; and when the classifier
    recognises the captured output of the subprocess, that classified
    error is what [Scan] returns, with the nil slice: the records of the
    parser are not produced. *)
Theorem Scan_records_or_error (t : Options) (filePath : bytes) (n : Z) :
  ((exists records, snd (scan t filePath n) = (Some records, None))
   \/ (exists e, snd (scan t filePath n) = (None, Some e)))
  /\ (forall cmd e,
        fst (scan t filePath n) = [cmd] ->
        checkTridError (fst (fst (CombinedOutput cmd))) = Some e ->
        snd (scan t filePath n) = (None, Some e)).
Proof.
  unfold Scan, execCmd, parseOutput.
  destruct filePath as [|a p].
  { split; [right; eexists; reflexivity | cbn; discriminate]. }
  destruct (Stat (a :: p)) as [e|].
  { destruct (notExist e); (split; [right; eexists; reflexivity | cbn; discriminate]). }
  destruct (n <? 1)%Z.
  { split; [right; eexists; reflexivity | cbn; discriminate]. }
  match goal with
  | |- context [CombinedOutput ?c] =>
      set (c0 := c); destruct (CombinedOutput c0) as [[out err] dl] eqn:Hc
  end.
  destruct dl; cbn [fst snd].
  - destruct (checkTridError out) as [e|] eqn:He; cbn [fst snd].
    + split; [right; eexists; reflexivity|]. intros cmd e' [= <-]. rewrite Hc. cbn.
      rewrite He. now intros [= ->].
    + split; [right; eexists; reflexivity|]. intros cmd e' [= <-]. rewrite Hc. cbn.
      rewrite He. discriminate.
  - destruct (checkTridError out) as [e|] eqn:He; cbn [fst snd].
    + split; [right; eexists; reflexivity|]. intros cmd e' [= <-]. rewrite Hc. cbn.
      rewrite He. now intros [= ->].
    + destruct err; cbn.
      * split; [right; eexists; reflexivity|]. intros cmd e' [= <-]. rewrite Hc. cbn.
        rewrite He. discriminate.
      * split; [left; eexists; reflexivity|]. intros cmd e' [= <-]. rewrite Hc. cbn.
        rewrite He. discriminate.
Qed.

(** C8: a scan that passes validation starts exactly one subprocess, the
    configured command under the configured timeout, whose arguments are
    in this order: ["-v"], ["-n:"] followed by the decimal numeral of the
    match count, ["-d:"] followed by the definitions path if and only if
    that path is not empty, and the file path last. *)
Theorem Scan_arguments (t : Options) (filePath : bytes) (n : Z) :
  filePath <> [] -> Stat filePath = None -> (1 <= n)%Z ->
  exists numeral,
    decimal_value numeral = Some n
    /\ fst (scan t filePath n)
       = [ {| name := Cmd t; timeout := Timeout t;
              args :=
                if list_eq_dec ascii_dec (Definitions t) []
                then [B "-v"; B "-n:" ++ numeral; filePath]
                else [B "-v"; B "-n:" ++ numeral;
                      B "-d:" ++ Definitions t; filePath] |} ].
Proof.
  intros Hp Hs Hn. exists (Itoa n). split; [apply Itoa_decimal|].
  unfold Scan, execCmd.
  destruct filePath as [|a p]; [contradiction|]. rewrite Hs.
  assert (Hlt : (n <? 1)%Z = false) by (apply Z.ltb_ge; lia).
  rewrite Hlt.
  destruct (Definitions t) as [|d ds] eqn:Hd; cbn [app];
    match goal with
    | |- context [CombinedOutput ?c] =>
        destruct (CombinedOutput c) as [[out err] dl]
    end;
    destruct dl; cbn [fst snd];
    destruct (checkTridError out); cbn [fst snd]; try reflexivity;
    destruct err; reflexivity.
Qed.

End Runtime.

(** ** Concrete runs *)

(** C1 as stated fails: the header
    ["100.0% (.7Z) 7-Zip compressed archive (v0.4)"] is well-formed, its
    name [N] is ["7-Zip compressed archive (v0.4)"], and the record's name
    is ["7-Zip compressed archive"]: the trailing group is not retained. *)
Lemma header_name_loses_last_group :
  header_ok seven_zip = true
  /\ header_line seven_zip = B "100.0% (.7Z) 7-Zip compressed archive (v0.4)"
  /\ header_name seven_zip = B "7-Zip compressed archive (v0.4)"
  /\ exists r,
       parseOutput (fun s => s) (fun s => s) (fun _ => None)
         (header_line seven_zip) = ([r], None)
       /\ Probability r = (100 # 1)%Q
       /\ Extension r = B ".7z"
       /\ Name r = B "7-Zip compressed archive"
       /\ Name r <> header_name seven_zip.
Proof.
  split; [reflexivity|]. split; [reflexivity|]. split; [reflexivity|].
  eexists. split; [vm_compute; reflexivity|].
  cbn. repeat split. discriminate.
Qed.

Lemma parseOutput_header_fields_witness :
  exists r,
    In r (fst (parseOutput (fun s => s) (fun s => s) (fun _ => None)
                 (header_line seven_zip)))
    /\ Name r = B "7-Zip compressed archive".
Proof.
  destruct (parseOutput_header_fields (fun s => s) (fun s => s)
              (fun _ => None) (header_line seven_zip) [] seven_zip []
              (100 # 1)%Q) as (r & Hr & _ & _ & _ & Hn & _).
  - vm_compute. now left.
  - reflexivity.
  - reflexivity.
  - exact I.
  - reflexivity.
  - exists r. split; [exact Hr | exact Hn].
Defined.

(** The hypotheses of [Scan_arguments] hold of a scan of ["sample.pdf"]
    for three matches with the default options, on a system where the file
    exists. *)
Lemma Scan_arguments_witness :
  exists numeral,
    decimal_value numeral = Some 3%Z
    /\ fst (Scan (fun s => s) (fun s => s) (fun _ => None) (fun _ => None)
              (fun _ => ([], None, false))
              (NewTrid {| Cmd := []; Definitions := []; Timeout := 0 |})
              (B "sample.pdf") 3)
       = [ {| name := B "trid"; timeout := (30 * Second)%Z;
              args := [B "-v"; B "-n:" ++ numeral; B "sample.pdf"] |} ].
Proof.
  apply (Scan_arguments (fun s => s) (fun s => s) (fun _ => None)
           (fun _ => None) (fun _ => ([], None, false))
           (NewTrid {| Cmd := []; Definitions := []; Timeout := 0 |})
           (B "sample.pdf") 3%Z).
  - discriminate.
  - reflexivity.
  - lia.
Defined.


(** C7 as stated fails in two ways.  The line ["Sub Remarks: x"] has a key
    that is none of the four, yet its value lands in the field Remarks,
    because the pattern is searched anywhere in the line.  And after the
    line ["Remarks: "], whose value is empty, the line ["Definition: d"]
    does not set the field Definition: [\s*] after the colon runs over the
    newline and the whole next line becomes the value of Remarks. *)
Lemma detail_lines_not_always_keyed :
  parseOutput (fun s => s) (fun s => s) (fun _ => None)
    (B "10.00% (.ps) PostScript" ++ [LF] ++ B "Sub Remarks: x")
  = ([ {| Extension := B ".ps"; Probability := (10 # 1)%Q;
          Name := B "PostScript"; MimeType := []; RelatedURL := [];
          Remarks := B "x"; Definition_ := [] |} ], None)
  /\ parseOutput (fun s => s) (fun s => s) (fun _ => None)
       (B "10.00% (.ps) PostScript" ++ [LF] ++ B "Remarks: " ++ [LF]
        ++ B "Definition: d")
     = ([ {| Extension := B ".ps"; Probability := (10 # 1)%Q;
             Name := B "PostScript"; MimeType := []; RelatedURL := [];
             Remarks := B "Definition: d"; Definition_ := [] |} ], None).
Proof. split; vm_compute; reflexivity. Qed.

(** The hypotheses of [detail_lines_last_wins] hold of the block
    ["100.0% (.TRD) TrID definition"] followed by the lines
    ["  Mime type: application/x-trid"], ["E-Mail : remarks@x"],
    ["Definitions found:  12345"], ["Remarks : first"], ["see remarks"] and
    ["Remarks: second"]: the letters of a key occur in the header and in
    three lines that are no key lines. *)
Lemma detail_lines_last_wins_witness :
  exists r,
    In r (fst (parseOutput (fun s => s) (fun s => s) (fun _ => None)
                 (header_line trid_definition
                  ++ render_lines
                       [ KeyLine (B "  ") (B "Mime type") [] (B " ")
                           (B "application/x-trid");
                         OtherLine (B "E-Mail : remarks@x");
                         OtherLine (B "Definitions found:  12345");
                         KeyLine [] (B "Remarks") (B " ") (B " ") (B "first");
                         OtherLine (B "see remarks");
                         KeyLine [] (B "Remarks") [] (B " ") (B "second") ])))
    /\ MimeType r = B "application/x-trid"
    /\ Remarks r = B "second"
    /\ RelatedURL r = []
    /\ Definition_ r = [].
Proof.
  destruct (detail_lines_last_wins (fun s => s) (fun s => s) (fun _ => None)
              (header_line trid_definition
               ++ render_lines
                    [ KeyLine (B "  ") (B "Mime type") [] (B " ")
                        (B "application/x-trid");
                      OtherLine (B "E-Mail : remarks@x");
                      OtherLine (B "Definitions found:  12345");
                      KeyLine [] (B "Remarks") (B " ") (B " ") (B "first");
                      OtherLine (B "see remarks");
                      KeyLine [] (B "Remarks") [] (B " ") (B "second") ])
              [] trid_definition
              [ KeyLine (B "  ") (B "Mime type") [] (B " ")
                  (B "application/x-trid");
                OtherLine (B "E-Mail : remarks@x");
                OtherLine (B "Definitions found:  12345");
                KeyLine [] (B "Remarks") (B " ") (B " ") (B "first");
                OtherLine (B "see remarks");
                KeyLine [] (B "Remarks") [] (B " ") (B "second") ]
              (100 # 1)%Q) as (r & Hin & _ & Hf & _).
  - vm_compute. now left.
  - reflexivity.
  - reflexivity.
  - reflexivity.
  - reflexivity.
  - reflexivity.
  - exists r. split; [exact Hin|].
    pose proof (Hf (B "Mime type") (or_introl eq_refl)) as H1.
    pose proof (Hf (B "Remarks")
                  (or_intror (or_intror (or_intror (or_introl eq_refl)))))
      as H2.
    pose proof (Hf (B "Related URL") (or_intror (or_introl eq_refl))) as H3.
    pose proof (Hf (B "Definition")
                  (or_intror (or_intror (or_introl eq_refl)))) as H4.
    vm_compute in H1, H2, H3, H4. repeat split; assumption.
Defined.

(** The hypotheses of [miscased_key_not_attached] hold of the block
    ["10.00% (.ps) PostScript"] followed by the line ["MIME TYPE: x"]. *)
Lemma miscased_key_not_attached_witness :
  In [B "MIME TYPE: x"; B "MIME TYPE"; B "x"]
     (FindAllStringSubmatch reFileDetails
        (header_line postscript
         ++ render_lines [KeyLine [] (B "MIME TYPE") [] (B " ") (B "x")]))
  /\ exists r,
       In r (fst (parseOutput (fun s => s) (fun s => s) (fun _ => None)
                    (header_line postscript
                     ++ render_lines
                          [KeyLine [] (B "MIME TYPE") [] (B " ") (B "x")])))
       /\ MimeType r = [].
Proof.
  destruct (miscased_key_not_attached (fun s => s) (fun s => s)
              (fun _ => None)
              (header_line postscript
               ++ render_lines [KeyLine [] (B "MIME TYPE") [] (B " ") (B "x")])
              [] postscript [] [] [] (B "MIME TYPE") [] (B " ") (B "x")
              (B "Mime type") (10 # 1)%Q) as (Hm & r & Hin & _ & Hf).
  - vm_compute. now left.
  - reflexivity.
  - reflexivity.
  - reflexivity.
  - reflexivity.
  - reflexivity.
  - now left.
  - reflexivity.
  - discriminate.
  - split; [exact Hm|]. exists r. split; [exact Hin|].
    specialize (Hf eq_refl). vm_compute in Hf. exact Hf.
Defined.

(** * Further properties *)

(** ** [NewTrid] *)

(** X1: [NewTrid] fills in the defaults and nothing else: the command is
    never empty and the timeout never zero afterwards, a command or timeout
    that was set is kept, the definitions path is untouched, and applying
    [NewTrid] twice changes nothing more. *)
Theorem NewTrid_defaults (opts : Options) :
  Cmd (NewTrid opts) <> []
  /\ Timeout (NewTrid opts) <> 0%Z
  /\ Definitions (NewTrid opts) = Definitions opts
  /\ (Cmd opts = [] -> Cmd (NewTrid opts) = B "trid")
  /\ (Cmd opts <> [] -> Cmd (NewTrid opts) = Cmd opts)
  /\ (Timeout opts = 0%Z -> Timeout (NewTrid opts) = (30 * Second)%Z)
  /\ (Timeout opts <> 0%Z -> Timeout (NewTrid opts) = Timeout opts)
  /\ NewTrid (NewTrid opts) = NewTrid opts.
Proof.
  destruct opts as [cmd defs tmo]. unfold NewTrid. cbn [Cmd Definitions Timeout].
  destruct (Z.eqb_spec tmo 0) as [->|Htmo].
  - destruct cmd as [|a cmd]; cbn; repeat split;
      try discriminate; try reflexivity; try contradiction;
      intros; try discriminate; try contradiction; reflexivity.
  - assert (E : (tmo =? 0)%Z = false) by now apply Z.eqb_neq.
    destruct cmd as [|a cmd]; cbn; rewrite ?E; repeat split;
      try discriminate; try reflexivity; try assumption;
      intros; try discriminate; try contradiction; reflexivity.
Qed.

(** ** The error classifier under more text *)

Lemma Occurs_context (phrase out a b : bytes) :
  Occurs phrase out -> Occurs phrase (a ++ out ++ b).
Proof.
  intros (x & y & ->). exists (a ++ x), (y ++ b).
  now rewrite <- !app_assoc.
Qed.

Lemma Contains_context (phrase out a b : bytes) :
  Contains out phrase = true -> Contains (a ++ out ++ b) phrase = true.
Proof. rewrite !Contains_spec. apply Occurs_context. Qed.

(** X2: text around an output never hides an error: when [checkTridError]
    classifies [out], it classifies every text that contains [out], as the
    same error or as one tested earlier. *)
Theorem checkTridError_context (out a b : bytes) (e : error) :
  checkTridError out = Some e ->
  exists e',
    checkTridError (a ++ out ++ b) = Some e' /\ priority e' <= priority e.
Proof.
  unfold checkTridError.
  repeat match goal with
         | |- context [Contains out ?p] =>
             let H := fresh "H" in
             destruct (Contains out p) eqn:H;
             [apply (Contains_context p out a b) in H; rewrite ?H|]
         end;
    cbn [andb]; intros [= <-];
    repeat match goal with
           | |- context [Contains (a ++ out ++ b) ?p] =>
               destruct (Contains (a ++ out ++ b) p)
           end;
    cbn [andb]; eexists; (split; [reflexivity | cbn; lia]).
Qed.

(** ** Running the subprocess *)

Section Subprocess.

Variable TrimFunc_IsSpace : bytes -> bytes.
Variable Map_ToLower : bytes -> bytes.
Variable ParseFloat_other : bytes -> option Q.
Variable Stat : bytes -> option os_error.
Variable CombinedOutput : Command -> bytes * option os_error * bool.

Local Abbreviation parse_output :=
  (parseOutput TrimFunc_IsSpace Map_ToLower ParseFloat_other).
Local Abbreviation scan :=
  (Scan TrimFunc_IsSpace Map_ToLower ParseFloat_other Stat CombinedOutput).
Local Abbreviation exec := (execCmd CombinedOutput).

(** [execCmd] hands exactly the given command to the system and
    returns what was captured as it is; its error is nil exactly when the
    run reported no error and the deadline was not exceeded; when the
    deadline was exceeded the error is the timeout error around the run's
    error, even if that one is nil. *)
Lemma execCmd_outcome (cmd : bytes) (tmo : Z) (arguments : list bytes) :
  fst (exec cmd tmo arguments)
  = [ {| name := cmd; timeout := tmo; args := arguments |} ]
  /\ fst (snd (exec cmd tmo arguments))
     = fst (fst (CombinedOutput
                   {| name := cmd; timeout := tmo; args := arguments |}))
  /\ (snd (snd (exec cmd tmo arguments)) = None <->
      CombinedOutput {| name := cmd; timeout := tmo; args := arguments |}
      = (fst (snd (exec cmd tmo arguments)), None, false))
  /\ (forall out err,
        CombinedOutput {| name := cmd; timeout := tmo; args := arguments |}
        = (out, err, true) ->
        snd (snd (exec cmd tmo arguments)) = Some (ErrTimedOut err))
  /\ (forall out e,
        CombinedOutput {| name := cmd; timeout := tmo; args := arguments |}
        = (out, Some e, false) ->
        snd (snd (exec cmd tmo arguments)) = Some (ErrOS e)).
Proof.
  unfold execCmd.
  destruct (CombinedOutput _) as [[out err] dl].
  destruct dl, err as [e|]; cbn; repeat split; try discriminate;
    try congruence; intros; congruence.
Qed.

Lemma Scan_valid (t : Options) (filePath : bytes) (n : Z) :
  valid_inputs Stat filePath n ->
  scan t filePath n
  = let '(started, (out, err)) :=
      exec (Cmd t) (Timeout t) (args (scan_command t filePath n)) in
    match checkTridError out with
    | Some tridErr => (started, (None, Some tridErr))
    | None =>
        match err with
        | Some e => (started, (None, Some e))
        | None => (started, (Some (fst (parse_output out)), None))
        end
    end.
Proof.
  intros (Hp & Hs & Hn). unfold Scan, scan_command. cbn [args].
  destruct filePath as [|a p]; [contradiction|]. rewrite Hs.
  assert (Hlt : (n <? 1)%Z = false) by (apply Z.ltb_ge; lia).
  rewrite Hlt. now destruct (Definitions t).
Qed.

Lemma Scan_invalid (t : Options) (filePath : bytes) (n : Z) :
  ~ valid_inputs Stat filePath n ->
  exists e, scan t filePath n = ([], (None, Some e)).
Proof.
  intros H. unfold Scan.
  destruct filePath as [|a p]; [eexists; reflexivity|].
  destruct (Stat (a :: p)) as [e|] eqn:Hs.
  { destruct (notExist e); eexists; reflexivity. }
  destruct (n <? 1)%Z eqn:Hn; [eexists; reflexivity|].
  exfalso. apply H. split; [discriminate|]. split; [exact Hs|].
  apply Z.ltb_ge in Hn. lia.
Qed.

Lemma valid_inputs_dec (filePath : bytes) (n : Z) :
  valid_inputs Stat filePath n \/ ~ valid_inputs Stat filePath n.
Proof.
  unfold valid_inputs.
  destruct filePath as [|a p]; [right; intros [H _]; now apply H|].
  destruct (Stat (a :: p)) as [e|]; [right; intros (_ & H & _); discriminate|].
  destruct (Z_le_gt_dec 1 n); [left | right].
  - repeat split; [discriminate | assumption].
  - intros (_ & _ & H). lia.
Qed.

(** X3: [Scan] returns records exactly when its inputs pass validation, the
    run of the subprocess reports no error within the deadline, and the
    captured output holds none of the error phrases; the records are then
    those [parseOutput] reads from that output. *)
Theorem Scan_success (t : Options) (filePath : bytes) (n : Z)
    (records : list FileType) :
  snd (scan t filePath n) = (Some records, None) <->
  valid_inputs Stat filePath n
  /\ exists out,
       CombinedOutput (scan_command t filePath n) = (out, None, false)
       /\ checkTridError out = None
       /\ records = fst (parse_output out).
Proof.
  destruct (valid_inputs_dec filePath n) as [Hv|Hv].
  - rewrite (Scan_valid t filePath n Hv). unfold execCmd.
    change {| name := Cmd t; timeout := Timeout t;
              args := args (scan_command t filePath n) |}
      with (scan_command t filePath n).
    destruct (CombinedOutput (scan_command t filePath n)) as [[out err] dl].
    split.
    + intros H. split; [exact Hv|]. exists out.
      destruct dl; cbn in H.
      * destruct (checkTridError out); discriminate.
      * destruct (checkTridError out); [discriminate|].
        destruct err; cbn in H; [discriminate|]. injection H as <-. auto.
    + intros (_ & out' & [= -> -> ->] & Hc & ->). cbn. now rewrite Hc.
  - destruct (Scan_invalid t filePath n Hv) as (e & ->). cbn. split.
    + discriminate.
    + intros [H _]. contradiction.
Qed.

(** X4: [Scan] hands at most one command to [os/exec], and hands one over
    exactly when its inputs pass validation: then it is the command of the
    options with the arguments built from them.  Whether a process runs
    is up to [os/exec]: for a command that cannot be started the run
    reports an error, and [Scan] returns an error in place of records. *)
Theorem Scan_hands_over_when_valid (t : Options) (filePath : bytes) (n : Z) :
  length (fst (scan t filePath n)) <= 1
  /\ (fst (scan t filePath n) <> [] <-> valid_inputs Stat filePath n)
  /\ (forall cmd, In cmd (fst (scan t filePath n)) ->
        cmd = scan_command t filePath n).
Proof.
  destruct (valid_inputs_dec filePath n) as [Hv|Hv].
  - rewrite (Scan_valid t filePath n Hv). unfold execCmd.
    change {| name := Cmd t; timeout := Timeout t;
              args := args (scan_command t filePath n) |}
      with (scan_command t filePath n).
    destruct (CombinedOutput (scan_command t filePath n)) as [[out err] dl].
    destruct dl; cbn; destruct (checkTridError out); cbn;
      try destruct err; cbn;
      (split; [lia|]; split;
       [split; [intros _; exact Hv | discriminate]
       | intros cmd [<-|[]]; reflexivity]).
  - destruct (Scan_invalid t filePath n Hv) as (e & ->). cbn.
    split; [lia|]. split; [|intros cmd []].
    split; [intros H; now contradiction H | intros H; contradiction].
Qed.

(** X5: when the run of the subprocess ends in an error, a timeout
    included, [Scan] returns no records: it returns the classified error of
    what was captured if there is one, and the error of the run
    otherwise. *)
Theorem Scan_failed_run (t : Options) (filePath : bytes) (n : Z)
    (out : bytes) (e : error) :
  valid_inputs Stat filePath n ->
  snd (exec (Cmd t) (Timeout t) (args (scan_command t filePath n)))
  = (out, Some e) ->
  snd (scan t filePath n)
  = (None, Some match checkTridError out with
                | Some tridErr => tridErr
                | None => e
                end).
Proof.
  intros Hv He. rewrite (Scan_valid t filePath n Hv).
  destruct (exec _ _ _) as [started [out' err]]. cbn in He.
  injection He as -> ->. now destruct (checkTridError out).
Qed.

(** X6: a Trid built by [NewTrid] never starts a command with an empty
    name or a zero timeout: with the options left empty it starts ["trid"]
    under a timeout of thirty seconds. *)
Theorem NewTrid_Scan_command (opts : Options) (filePath : bytes) (n : Z)
    (cmd : Command) :
  In cmd (fst (scan (NewTrid opts) filePath n)) ->
  name cmd <> [] /\ timeout cmd <> 0%Z
  /\ (Cmd opts = [] -> name cmd = B "trid")
  /\ (Timeout opts = 0%Z -> timeout cmd = (30 * Second)%Z)
  /\ last (args cmd) [] = filePath.
Proof.
  intros Hin.
  destruct (valid_inputs_dec filePath n) as [Hv|Hv].
  - rewrite (Scan_valid (NewTrid opts) filePath n Hv) in Hin.
    unfold execCmd in Hin.
    destruct (CombinedOutput _) as [[out err] dl].
    assert (E : cmd = scan_command (NewTrid opts) filePath n).
    { destruct dl; cbn in Hin; destruct (checkTridError out); cbn in Hin;
        try destruct err; cbn in Hin; destruct Hin as [<-|[]]; reflexivity. }
    subst cmd. unfold scan_command. cbn [name timeout args].
    destruct opts as [c d tm]. unfold NewTrid. cbn [Cmd Definitions Timeout].
    split; [now destruct c|]. split.
    { destruct (Z.eqb_spec tm 0); [discriminate | assumption]. }
    split; [now intros ->|]. split; [now intros ->|].
    destruct d; reflexivity.
  - destruct (Scan_invalid (NewTrid opts) filePath n Hv) as (e & E).
    rewrite E in Hin. contradiction.
Qed.

End Subprocess.

(** ** What the greedy and the lazy scans settle on *)

Lemma span_app p (s : bytes) : s = fst (span p s) ++ snd (span p s).
Proof.
  induction s as [|a s IH]; [reflexivity|]. cbn [span].
  destruct (p a); cbn [fst snd app]; [now rewrite <- IH | reflexivity].
Qed.

Lemma span_all p (s : bytes) : forallb p (fst (span p s)) = true.
Proof.
  induction s as [|a s IH]; [reflexivity|]. cbn [span].
  destruct (p a) eqn:Ha; cbn [fst forallb]; [now rewrite Ha, IH | reflexivity].
Qed.

Lemma span_stops p (s : bytes) : stops p (snd (span p s)).
Proof.
  induction s as [|a s IH]; [exact I|]. cbn [span].
  destruct (p a) eqn:Ha; cbn [snd stops]; assumption.
Qed.

(** A greedy star before a continuation that accepts the rest reads the
    longest word of the class. *)
Lemma star_greedy_span p (s : bytes) (c : caps) (k : cont) x :
  k (snd (span p s)) c = Some x ->
  run (Star true (Chr p)) s c k = Some x.
Proof.
  intros H. rewrite (span_app p s) at 1.
  apply star_greedy_first; [apply span_all | apply span_stops | exact H].
Qed.

(** A lazy star succeeds when its continuation succeeds after a word of
    the class. *)
Lemma star_lazy_reach p (w t : bytes) (c : caps) (k : cont) :
  forallb p w = true -> k t c <> None ->
  run (Star false (Chr p)) (w ++ t) c k <> None.
Proof.
  intros Hw Hk. induction w as [|a w IH]; cbn [app].
  - destruct (k t c) as [x|] eqn:E; [|contradiction].
    now rewrite (star_lazy_first p t c k x E).
  - cbn in Hw. apply andb_true_iff in Hw. destruct Hw as [Ha Hw].
    rewrite star_class_step by exact Ha.
    destruct (k (a :: w ++ t) c); [discriminate | now apply IH].
Qed.

(** [(.*?)$] reads the rest of the line, whatever comes after. *)
Lemma rest_of_line (i : nat) (t : bytes) (c : caps) (k : cont) :
  run (Cat (Cap i (Star false (Chr any))) Eol) t c k
  = k (snd (span any t)) (set_cap i (fst (span any t)) c).
Proof.
  pose proof (span_app any t) as E. pose proof (span_all any t) as Hw.
  pose proof (span_stops any t) as Ht.
  destruct (span any t) as [w t']. cbn [fst snd] in *. subst t.
  rewrite run_Cat, run_Cap. rewrite star_lazy_skip.
  - rewrite star_class_stop by exact Ht.
    rewrite run_Eol_pass by exact Ht. now rewrite consumed_app.
  - exact Hw.
  - intros w1 a w2 Hsplit. apply run_Eol_fail, any_not_LF.
    rewrite forallb_forall in Hw.
    apply Hw. rewrite Hsplit. apply in_or_app. right. now left.
Qed.

Lemma run_Cat_sound r1 r2 s c (k : cont) x :
  run (Cat r1 r2) s c k = Some x ->
  exists s1 c1, Matches r1 s c s1 c1 /\ run r2 s1 c1 k = Some x.
Proof. rewrite run_Cat. apply run_sound. Qed.

Lemma search_run (re : Regexp) (s : bytes) x :
  search re s = Some x ->
  exists pre s0,
    s = pre ++ s0
    /\ run (Cap 0 (expr re)) s0 (repeat [] (S (numSubexp re))) accept
       = Some x.
Proof.
  induction s as [|a s IH]; cbn [search].
  - destruct (run _ _ _ _) eqn:H; [|discriminate]. intros [= ->].
    now exists [], [].
  - destruct (run _ _ _ _) eqn:H.
    + intros [= ->]. now exists [], (a :: s).
    + intros H'. destruct (IH H') as (pre & s0 & -> & Hr).
      now exists (a :: pre), s0.
Qed.

Lemma set_cap_length i w (c : caps) : length (set_cap i w c) = length c.
Proof.
  revert i; induction c as [|x c IH]; intros [|i]; cbn; auto.
Qed.

Lemma Matches_caps_length r s c s' c' :
  Matches r s c s' c' -> length c' = length c.
Proof.
  induction 1; try reflexivity; try congruence.
  now rewrite set_cap_length.
Qed.

Lemma stops_prefix p (w t : bytes) : stops p (w ++ t) -> stops p w.
Proof. destruct w; [intros _; exact I | trivial]. Qed.

(** The value [reFileDetails] captures is the rest of the line that starts
    after the colon and the white space that follows it. *)
Lemma reFileDetails_value (s : bytes) (c : caps) (s' : bytes) :
  search reFileDetails s = Some (c, s') ->
  exists m0 key after_colon,
    c = [m0; key; fst (span any (snd (span space after_colon)))].
Proof.
  intros H. apply search_run in H. destruct H as (pre & s0 & -> & H).
  rewrite run_Cap in H. cbn [expr reFileDetails numSubexp repeat] in H.
  apply run_Cat_sound in H. destruct H as (s1 & c1 & M1 & H).
  apply Matches_Cap_inv in M1. destruct M1 as (c1' & M1 & ->).
  pose proof (Matches_cap_free _ _ _ _ _ M1 eq_refl) as ->.
  cbn [set_cap] in H.
  apply run_Cat_sound in H. destruct H as (s2 & c2 & M2 & H).
  pose proof (Matches_cap_free _ _ _ _ _ M2 eq_refl) as ->.
  apply run_Cat_sound in H. destruct H as (s3 & c3 & M3 & H).
  apply Matches_Chr_inv in M3. destruct M3 as (-> & _).
  rewrite run_Cat in H.
  assert (Hk : forall t c,
             run (Cat (Cap 2 (Star false (Chr any))) Eol) t c
               (fun s'0 c' => accept s'0 (set_cap 0 (consumed s0 s'0) c'))
             = Some (set_cap 0 (consumed s0 (snd (span any t)))
                       (set_cap 2 (fst (span any t)) c),
                     snd (span any t))).
  { intros t c0. now rewrite rest_of_line. }
  match type of H with
  | run ?r ?s ?c0 ?k = _ =>
      assert (E : run r s c0 k
                  = Some (set_cap 0
                            (consumed s0 (snd (span any (snd (span space s3)))))
                            (set_cap 2
                               (fst (span any (snd (span space s3)))) c0),
                          snd (span any (snd (span space s3)))))
        by (apply star_greedy_span; apply Hk)
  end.
  rewrite E in H. injection H as <- <-. cbn [set_cap].
  eexists _, _, s3. reflexivity.
Qed.

(** Every submatch list [FindAllStringSubmatch] returns comes from a
    search. *)
Lemma allMatches_sound (re : Regexp) (n : nat) :
  forall prev s m,
    In m (allMatches re n prev s) ->
    exists s1 s', search re s1 = Some (m, s').
Proof.
  induction n as [|n IH]; intros prev s m; cbn [allMatches]; [intros []|].
  destruct (search re s) as [[c s']|] eqn:Hs; [|intros []].
  destruct (length s' <? length s).
  - intros [<-|H]; [now exists s, s' | now apply IH in H].
  - assert (Hmore : In m match s with
                         | [] => []
                         | _ :: t => allMatches re n false t
                         end ->
                    exists s1 s'0, search re s1 = Some (m, s'0)).
    { destruct s; [intros [] | apply IH]. }
    destruct prev; [exact Hmore|]. intros [<-|H]; [now exists s, s' | auto].
Qed.

(** Group 3 and the end of the header pattern succeed from any position:
    at the latest with the whole rest of the line as the name. *)
Lemma name_and_end_total (t : bytes) (c : caps) (k : cont) :
  (forall s c', k s c' <> None) ->
  run (Cat (Cap 3 (Cat (Star false (Chr any)) (Star false paren_group)))
           header_end) t c k <> None.
Proof.
  intros Hk. rewrite run_Cat, run_Cap, run_Cat.
  pose proof (span_app any t) as E. pose proof (span_all any t) as Hw.
  pose proof (span_stops any t) as Ht.
  destruct (span any t) as [w t']. cbn [fst snd] in *.
  rewrite E at 1. apply star_lazy_reach; [exact Hw|].
  rewrite run_Star. cbv zeta beta.
  destruct (header_end_at_eol t' (set_cap 3 (consumed t t') c) k Ht)
    as (s' & Hs'); [intros s0; apply Hk|].
  rewrite Hs'. destruct (k s' _) eqn:Ek; [discriminate | now apply Hk in Ek].
Qed.

(** The name [reFileInfo] captures does not start with white space: the
    [\s+] before it reads all there is. *)
Lemma reFileInfo_name (s : bytes) (c : caps) (s' : bytes) :
  search reFileInfo s = Some (c, s') -> stops space (nth 3 c []).
Proof.
  intros H. apply search_run in H. destruct H as (pre & s0 & -> & H).
  rewrite run_Cap in H. cbn [expr reFileInfo numSubexp repeat] in H.
  set (k0 := fun s'0 c' => accept s'0 (set_cap 0 (consumed s0 s'0) c')) in H.
  apply run_Cat_sound in H. destruct H as (s1 & c1 & M1 & H).
  apply run_Cat_sound in H. destruct H as (s2 & c2 & M2 & H).
  apply run_Cat_sound in H. destruct H as (s3 & c3 & M3 & H).
  apply run_Cat_sound in H. destruct H as (s4 & c4 & M4 & H).
  apply run_Cat_sound in H. destruct H as (s5 & c5 & M5 & H).
  assert (Hlen : length c5 = 4).
  { rewrite (Matches_caps_length _ _ _ _ _ M5),
      (Matches_caps_length _ _ _ _ _ M4), (Matches_caps_length _ _ _ _ _ M3),
      (Matches_caps_length _ _ _ _ _ M2), (Matches_caps_length _ _ _ _ _ M1).
    reflexivity. }
  clear M1 M2 M3 M4 M5.
  rewrite run_Cat in H. unfold Plus in H. rewrite run_Cat in H.
  destruct s5 as [|a u]; [discriminate|].
  destruct (space a) eqn:Ha; [|now rewrite run_Chr_miss in H].
  rewrite run_Chr_hit in H by exact Ha.
  match type of H with
  | run _ u c5 ?k = _ =>
      destruct (k (snd (span space u)) c5) as [y|] eqn:Ek;
      [ rewrite (star_greedy_span space u c5 k y Ek) in H
      | exfalso; revert Ek; apply name_and_end_total; discriminate ]
  end.
  injection H as ->. pose proof (span_stops space u) as Ht.
  set (t := snd (span space u)) in *.
  apply run_Cat_sound in Ek. destruct Ek as (s6 & c6 & M6 & Ek).
  apply Matches_Cap_inv in M6. destruct M6 as (c6' & M6 & ->).
  pose proof (Matches_cap_free _ _ _ _ _ M6 eq_refl) as ->.
  apply Matches_prefix in M6. destruct M6 as (w & Hw).
  apply run_sound in Ek. destruct Ek as (s7 & c7 & M7 & Ek).
  apply Matches_cap_free in M7; [|reflexivity]. subst c7.
  unfold k0, accept in Ek. injection Ek as <- <-.
  rewrite Hw, consumed_app. rewrite Hw in Ht. apply stops_prefix in Ht.
  destruct c5 as [|x0 [|x1 [|x2 [|x3 [|]]]]]; try discriminate.
  exact Ht.
Qed.

(** ** The range of [ParseFloat] *)

Lemma readFloat_nonneg (s : bytes) :
  forall d d', readFloat s d = Some d' -> (0 <= mant d)%Z -> (0 <= mant d')%Z.
Proof.
  induction s as [|a s IH]; intros d d'; cbn [readFloat].
  - destruct (sawdigits d); [|discriminate]. now intros [= <-].
  - destruct (Ascii.eqb a ".").
    + destruct (sawdot d); [discriminate|]. intros H Hd.
      apply (IH _ _ H). exact Hd.
    + destruct (isDigit a); [|discriminate]. intros H Hd.
      apply (IH _ _ H). cbn [mant]. unfold digitVal. lia.
Qed.

(** [round64] gives a finite non-negative value. *)
Lemma round64_range (n d : Z) (v : Q) :
  (0 <= n)%Z -> (0 < d)%Z -> round64 n d = Some v ->
  (0 <= v)%Q /\ (v < inject_Z (2 ^ 1024))%Q.
Proof.
  intros Hn Hd. unfold round64.
  destruct (n <=? 0)%Z eqn:En.
  { intros [= <-]. split; [apply Qle_refl | reflexivity]. }
  apply Z.leb_gt in En.
  set (k := if (0 <=? Z.log2 n - Z.log2 d)%Z then _ else _).
  set (e := Z.max (k - 52) (-1074)).
  set (num := if (0 <=? e)%Z then n else (n * 2 ^ (- e))%Z).
  set (den := if (0 <=? e)%Z then (d * 2 ^ e)%Z else d).
  assert (Hnum : (0 <= num)%Z).
  { subst num. destruct (0 <=? e)%Z; [lia|].
    apply Z.mul_nonneg_nonneg; [lia | apply Z.pow_nonneg; lia]. }
  assert (Hden : (0 < den)%Z).
  { subst den. destruct (0 <=? e)%Z eqn:Ee; [|exact Hd].
    apply Z.leb_le in Ee. apply Z.mul_pos_pos; [exact Hd|].
    apply Z.pow_pos_nonneg; lia. }
  set (q := (num / den)%Z).
  assert (Hq : (0 <= q)%Z) by (subst q; apply Z.div_pos; assumption).
  set (q' := if (2 * (num mod den) <? den)%Z then q else _).
  assert (Hq' : (0 <= q')%Z).
  { subst q'. destruct (2 * (num mod den) <? den)%Z; [exact Hq|].
    destruct (den <? 2 * (num mod den))%Z; [lia|].
    destruct (Z.even q); lia. }
  set (v0 := if (0 <=? e)%Z then _ else _).
  destruct (Qle_bool (inject_Z (2 ^ 1024)) v0) eqn:Eo; [discriminate|].
  intros [= <-]. split.
  - subst v0. destruct (0 <=? e)%Z eqn:Ee.
    + apply Z.leb_le in Ee. unfold Qle. cbn.
      rewrite Z.mul_1_r. apply Z.mul_nonneg_nonneg; [exact Hq'|].
      apply Z.pow_nonneg. lia.
    + rewrite Qred_correct. unfold Qle. cbn. lia.
  - apply Qnot_le_lt. intros H. apply Qle_bool_iff in H. congruence.
Qed.

(** [ParseFloat] on a word of digits and dots gives a finite
    non-negative value, whatever it does on other words. *)
Lemma ParseFloat_decimal_range (F : bytes -> option Q) (w : bytes) (v : Q) :
  forallb digit_or_dot w = true -> ParseFloat F w = Some v ->
  (0 <= v)%Q /\ (v < inject_Z (2 ^ 1024))%Q.
Proof.
  intros Hw. unfold ParseFloat. fold digit_or_dot.
  change (fun a => Ascii.eqb a "." || isDigit a) with digit_or_dot.
  rewrite Hw.
  destruct (readFloat w _) as [d|] eqn:Hr; [|discriminate].
  apply round64_range.
  - apply (readFloat_nonneg _ _ _ Hr). cbn. lia.
  - apply Z.pow_pos_nonneg; lia.
Qed.

(** ** Invariants of the records *)

Lemma setDetail_trimmed (f : FileType) (m : list bytes) :
  trimmed_line (nth 2 m []) ->
  trimmed_line (MimeType f) /\ trimmed_line (RelatedURL f)
  /\ trimmed_line (Remarks f) /\ trimmed_line (Definition_ f) ->
  trimmed_line (MimeType (setDetail f m))
  /\ trimmed_line (RelatedURL (setDetail f m))
  /\ trimmed_line (Remarks (setDetail f m))
  /\ trimmed_line (Definition_ (setDetail f m)).
Proof.
  intros Hm (H1 & H2 & H3 & H4). unfold setDetail.
  repeat match goal with
         | |- context [list_eq_dec ?d ?x ?y] => destruct (list_eq_dec d x y)
         end; cbn; auto.
Qed.

Lemma fold_setDetail_trimmed (ms : list (list bytes)) :
  (forall m, In m ms -> trimmed_line (nth 2 m [])) ->
  forall f,
    trimmed_line (MimeType f) /\ trimmed_line (RelatedURL f)
    /\ trimmed_line (Remarks f) /\ trimmed_line (Definition_ f) ->
    trimmed_line (MimeType (fold_left setDetail ms f))
    /\ trimmed_line (RelatedURL (fold_left setDetail ms f))
    /\ trimmed_line (Remarks (fold_left setDetail ms f))
    /\ trimmed_line (Definition_ (fold_left setDetail ms f)).
Proof.
  induction ms as [|m ms IH]; intros Hms f Hf; [exact Hf|].
  cbn [fold_left]. apply IH.
  - intros m' Hm'. apply Hms. now right.
  - apply setDetail_trimmed; [apply Hms; now left | exact Hf].
Qed.

Lemma FindAll_details_trimmed (s : bytes) (m : list bytes) :
  In m (FindAllStringSubmatch reFileDetails s) -> trimmed_line (nth 2 m []).
Proof.
  intros H. apply allMatches_sound in H. destruct H as (s1 & s' & H).
  apply reFileDetails_value in H. destruct H as (m0 & key & t & ->).
  cbn [nth]. split; [apply span_all|].
  pose proof (span_stops space t) as Ht.
  rewrite (span_app any (snd (span space t))) in Ht.
  now apply stops_prefix in Ht.
Qed.

Section Records.

Variable TrimFunc_IsSpace : bytes -> bytes.
Variable Map_ToLower : bytes -> bytes.
Variable ParseFloat_other : bytes -> option Q.

Local Abbreviation parse_result :=
  (parseResult TrimFunc_IsSpace Map_ToLower ParseFloat_other).
Local Abbreviation parse_output :=
  (parseOutput TrimFunc_IsSpace Map_ToLower ParseFloat_other).
Local Abbreviation field := (probability_field TrimFunc_IsSpace).

(** A record is the fold of [setDetail] over the matches of
    [reFileDetails] in its block, from a record without details. *)
Lemma parseResult_fold (block : bytes) (r : FileType) :
  In r (parse_result [] block) ->
  exists f0,
    r = fold_left setDetail (FindAllStringSubmatch reFileDetails block) f0
    /\ MimeType f0 = [] /\ RelatedURL f0 = [] /\ Remarks f0 = []
    /\ Definition_ f0 = [].
Proof.
  unfold parseResult.
  destruct (negb (length (FindStringSubmatch reFileInfo block) =? 4));
    [intros []|].
  match goal with
  | |- context [length ?x =? 0] => destruct (length x =? 0)
  end; [intros []|].
  match goal with
  | |- context [ParseFloat ?o ?x] => destruct (ParseFloat o x) as [p|]
  end; [|intros []].
  cbn [app In]. intros [<-|[]]. eexists. split; [reflexivity|].
  cbn. auto.
Qed.

(** X7: what [parseOutput] hands to [ParseFloat] is always a non-empty
    word of digits and dots: the test for an empty field never fires, and
    no sign, exponent, infinity or NaN is ever parsed. *)
Theorem ParseFloat_argument_decimal (block : bytes) :
  FindStringSubmatch reFileInfo block <> [] ->
  exists a w,
    field block = a :: w /\ forallb digit_or_dot (a :: w) = true.
Proof.
  intros H. unfold FindStringSubmatch in H.
  destruct (search reFileInfo block) as [[c rest]|] eqn:Hs;
    [|now contradiction H].
  apply (probability_field_digits TrimFunc_IsSpace block c rest Hs).
Qed.

(** X8: the probability of every record is a finite non-negative number
    (it is not checked against 100). *)
Theorem parseOutput_probability_range (out : bytes) (r : FileType) :
  In r (fst (parse_output out)) ->
  (0 <= Probability r)%Q /\ (Probability r < inject_Z (2 ^ 1024))%Q.
Proof.
  intros Hr.
  apply (parseOutput_In TrimFunc_IsSpace Map_ToLower ParseFloat_other) in Hr.
  destruct Hr as (block & _ & Hr).
  apply (parseResult_inv TrimFunc_IsSpace Map_ToLower ParseFloat_other) in Hr.
  destruct Hr as (c & rest & Hs & Hp & _).
  destruct (probability_field_digits TrimFunc_IsSpace block c rest Hs)
    as (a & w & E & Hw).
  rewrite E in Hp. exact (ParseFloat_decimal_range _ _ _ Hw Hp).
Qed.

(** X9: the name of every record starts with none of the bytes of the
    class [\s] of the patterns: space, tab, newline, form feed and
    carriage return.  Other white space is not stripped: see
    [vertical_tab_leads]. *)
Theorem parseOutput_name_trimmed (out : bytes) (r : FileType) :
  In r (fst (parse_output out)) -> stops space (Name r).
Proof.
  intros Hr.
  apply (parseOutput_In TrimFunc_IsSpace Map_ToLower ParseFloat_other) in Hr.
  destruct Hr as (block & _ & Hr).
  apply (parseResult_inv TrimFunc_IsSpace Map_ToLower ParseFloat_other) in Hr.
  destruct Hr as (c & rest & Hs & _ & _ & -> & _).
  exact (reFileInfo_name block c rest Hs).
Qed.

(** X10: every detail field of every record is empty or a text without
    newline that starts with none of the bytes of the class [\s] of the
    patterns: space, tab, newline, form feed and carriage return.  Other
    white space is not stripped: see [vertical_tab_leads]. *)
Theorem parseOutput_details_trimmed (out : bytes) (r : FileType) :
  In r (fst (parse_output out)) ->
  trimmed_line (MimeType r) /\ trimmed_line (RelatedURL r)
  /\ trimmed_line (Remarks r) /\ trimmed_line (Definition_ r).
Proof.
  intros Hr.
  apply (parseOutput_In TrimFunc_IsSpace Map_ToLower ParseFloat_other) in Hr.
  destruct Hr as (block & _ & Hr). apply parseResult_fold in Hr.
  destruct Hr as (f0 & -> & E1 & E2 & E3 & E4).
  apply fold_setDetail_trimmed.
  - intros m. apply FindAll_details_trimmed.
  - rewrite E1, E2, E3, E4. repeat split.
Qed.

End Records.

(** A vertical tab is no byte of [\s]: it stays at the head of a name and
    of a detail value. *)
Lemma vertical_tab_leads :
  parseOutput (fun s => s) (fun s => s) (fun _ => None)
    (B "50% (.a) " ++ ["011"%char] ++ B "name" ++ [LF]
     ++ B "Mime type: " ++ ["011"%char] ++ B "v")
  = ([ {| Extension := B ".a"; Probability := (50 # 1)%Q;
          Name := "011"%char :: B "name";
          MimeType := "011"%char :: B "v";
          RelatedURL := []; Remarks := []; Definition_ := [] |} ], None).
Proof. vm_compute. reflexivity. Qed.

(** ** Line ends and blank lines *)

Lemma last_cons_cons {A : Type} (x y : A) (l : list A) (d : A) :
  last (x :: y :: l) d = last (y :: l) d.
Proof. reflexivity. Qed.

(** Replacing [\r\n] goes through a concatenation unless a [\r\n] sits
    across the seam. *)
Lemma replace_CRLF_app (a b : bytes) :
  forall k,
    k <= length a ->
    last a " "%char <> CR \/ HasPrefix b [LF] = false ->
    replace_from [CR; LF] [LF] k (a ++ b)
    = replace_from [CR; LF] [LF] k a ++ replace_from [CR; LF] [LF] 0 b.
Proof.
  induction a as [|x a IH]; intros k Hk Hseam.
  - destruct k; [reflexivity | cbn in Hk; lia].
  - assert (Hseam' : last a " "%char <> CR \/ HasPrefix b [LF] = false).
    { destruct Hseam as [H|H]; [|now right]. left.
      destruct a; [discriminate | exact H]. }
    destruct k as [|k]; cbn [app replace_from].
    + assert (E : HasPrefix (x :: a ++ b) [CR; LF]
                  = HasPrefix (x :: a) [CR; LF]).
      { cbn [HasPrefix]. destruct a as [|y a]; cbn [app HasPrefix].
        - rewrite andb_false_r.
          destruct Hseam as [H|H].
          + cbn in H. destruct (Ascii.eqb_spec x CR); [contradiction|reflexivity].
          + destruct b as [|z b]; [now rewrite andb_false_r|].
            cbn [HasPrefix] in H. cbn [HasPrefix]. rewrite H.
            now rewrite andb_false_r.
        - reflexivity. }
      rewrite E. destruct (HasPrefix (x :: a) [CR; LF]) eqn:Hp.
      * cbn [length Nat.sub app]. f_equal. apply IH; [|exact Hseam'].
        destruct a as [|y a]; [|cbn; lia].
        cbn in Hp. now rewrite andb_false_r in Hp.
      * cbn [app]. f_equal. apply IH; [lia | exact Hseam'].
    + apply IH; [cbn in Hk; lia | exact Hseam'].
Qed.

Lemma ReplaceAll_CRLF_last (a : bytes) :
  last a " "%char <> LF ->
  last (ReplaceAll a [CR; LF] [LF]) " "%char = last a " "%char.
Proof.
  intros H. unfold ReplaceAll.
  destruct a as [|x a] using rev_ind; [reflexivity|]. clear IHa.
  rewrite last_last in *.
  rewrite replace_CRLF_app; [|lia|].
  - cbn [replace_from HasPrefix]. rewrite andb_false_r. now rewrite last_last.
  - right. cbn. destruct (Ascii.eqb_spec x LF); [contradiction | reflexivity].
Qed.

(** Splitting at blank lines goes through a blank line that follows no
    newline. *)
Lemma split_blank_line (a b : bytes) :
  forall k cur,
    k <= length a -> last a " "%char <> LF ->
    split_from [LF; LF] k cur (a ++ LF :: LF :: b)
    = split_from [LF; LF] k cur a ++ split_from [LF; LF] 0 [] b.
Proof.
  induction a as [|x a IH]; intros k cur Hk Hlast.
  - destruct k; [reflexivity | cbn in Hk; lia].
  - assert (Hlast' : last a " "%char <> LF).
    { destruct a; [discriminate | exact Hlast]. }
    destruct k as [|k]; cbn [app split_from].
    + assert (E : HasPrefix (x :: a ++ LF :: LF :: b) [LF; LF]
                  = HasPrefix (x :: a) [LF; LF]).
      { cbn [HasPrefix]. destruct a as [|y a]; cbn [app HasPrefix].
        - cbn in Hlast. rewrite andb_false_r.
          destruct (Ascii.eqb_spec x LF); [contradiction | reflexivity].
        - reflexivity. }
      rewrite E. destruct (HasPrefix (x :: a) [LF; LF]) eqn:Hp.
      * cbn [length Nat.sub app]. f_equal. apply IH; [|exact Hlast'].
        destruct a as [|y a]; [|cbn; lia].
        cbn in Hp. now rewrite andb_false_r in Hp.
      * apply IH; [lia | exact Hlast'].
    + apply IH; [cbn in Hk; lia | exact Hlast'].
Qed.

Lemma results_blank_line (a b : bytes) :
  last a " "%char <> CR -> last a " "%char <> LF ->
  results (a ++ [LF; LF] ++ b) = results a ++ results b.
Proof.
  intros Hcr Hlf. unfold results, Split, ReplaceAll.
  rewrite replace_CRLF_app; [|lia | now left].
  cbn [app replace_from HasPrefix andb Ascii.eqb LF CR Bool.eqb].
  change (replace_from [CR; LF] [LF] 0 a) with (ReplaceAll a [CR; LF] [LF]).
  apply split_blank_line; [lia|].
  now rewrite ReplaceAll_CRLF_last.
Qed.

Lemma toCRLF_head (s : bytes) : HasPrefix (toCRLF s) [LF] = false.
Proof.
  destruct s as [|a s]; [reflexivity|]. cbn [toCRLF].
  destruct (Ascii.eqb a LF) eqn:E; cbn [HasPrefix]; [reflexivity|].
  now rewrite E.
Qed.

(** Writing the newlines as [\r\n] is undone by the replacement. *)
Lemma ReplaceAll_toCRLF (s : bytes) :
  ReplaceAll (toCRLF s) [CR; LF] [LF] = s.
Proof.
  unfold ReplaceAll. induction s as [|a s IH]; [reflexivity|].
  cbn [toCRLF]. destruct (Ascii.eqb a LF) eqn:E.
  - apply Ascii.eqb_eq in E. subst a. cbn. now rewrite IH.
  - cbn [replace_from HasPrefix].
    change (match toCRLF s with
            | [] => false
            | a0 :: s' => Ascii.eqb a0 LF && true
            end) with (HasPrefix (toCRLF s) [LF]).
    now rewrite toCRLF_head, andb_false_r, IH.
Qed.

Lemma ReplaceAll_no_CRLF (s : bytes) :
  Contains s [CR; LF] = false -> ReplaceAll s [CR; LF] [LF] = s.
Proof.
  unfold ReplaceAll. induction s as [|a s IH]; [reflexivity|].
  cbn [Contains]. intros H. apply orb_false_iff in H. destruct H as [Hp H].
  cbn [replace_from]. rewrite Hp. now rewrite (IH H).
Qed.

Section Blocks.

Variable TrimFunc_IsSpace : bytes -> bytes.
Variable Map_ToLower : bytes -> bytes.
Variable ParseFloat_other : bytes -> option Q.

Local Abbreviation parse_output :=
  (parseOutput TrimFunc_IsSpace Map_ToLower ParseFloat_other).

(** X11: a blank line separates for good: when [a] ends in neither a
    carriage return nor a newline, the records of [a], a blank line and [b]
    are the records of [a] followed by the records of [b]; no record reads
    across the blank line, and the order of the text is kept. *)
Theorem parseOutput_blank_line (a b : bytes) :
  last a " "%char <> CR -> last a " "%char <> LF ->
  parse_output (a ++ [LF; LF] ++ b)
  = (fst (parse_output a) ++ fst (parse_output b), None).
Proof.
  intros Hcr Hlf. unfold parseOutput. cbn [fst].
  rewrite (results_blank_line a b Hcr Hlf).
  rewrite !(fold_parseResult TrimFunc_IsSpace Map_ToLower ParseFloat_other).
  cbn [app]. now rewrite flat_map_app.
Qed.

(** X12: a text that holds no carriage return followed by a newline is
    parsed to the same records when each of its newlines is written as
    carriage return and newline. *)
Theorem parseOutput_line_endings (out : bytes) :
  Contains out [CR; LF] = false ->
  parse_output (toCRLF out) = parse_output out.
Proof.
  intros H. unfold parseOutput, results.
  now rewrite ReplaceAll_toCRLF, (ReplaceAll_no_CRLF out H).
Qed.

End Blocks.

(** ** Concrete runs of the further properties *)

(** The hypothesis of [checkTridError_context] holds of the output
    ["Unknown!"]; with the phrase of the missing definitions in front of it
    the error is the one tested earlier. *)
Lemma checkTridError_context_witness :
  checkTridError (B "Unknown!") = Some ErrUnknownFileType
  /\ exists e',
       checkTridError (B "No definitions available! " ++ B "Unknown!" ++ [])
       = Some e'
       /\ priority e' <= priority ErrUnknownFileType.
Proof.
  split; [reflexivity|].
  apply (checkTridError_context (B "Unknown!")
           (B "No definitions available! ") [] ErrUnknownFileType).
  reflexivity.
Defined.

(** The hypotheses of [Scan_failed_run] hold of a scan of ["sample.bin"]
    whose subprocess prints ["Unknown!"] and exits with an error. *)
Lemma Scan_failed_run_witness :
  snd (Scan (fun s => s) (fun s => s) (fun _ => None) (fun _ => None)
         (fun _ => (B "Unknown!",
                    Some {| notExist := false; message := B "exit status 1" |},
                    false))
         (NewTrid {| Cmd := []; Definitions := []; Timeout := 0 |})
         (B "sample.bin") 1)
  = (None, Some ErrUnknownFileType).
Proof.
  apply (Scan_failed_run (fun s => s) (fun s => s) (fun _ => None)
           (fun _ => None)
           (fun _ => (B "Unknown!",
                      Some {| notExist := false;
                              message := B "exit status 1" |},
                      false))
           (NewTrid {| Cmd := []; Definitions := []; Timeout := 0 |})
           (B "sample.bin") 1%Z (B "Unknown!")
           (ErrOS {| notExist := false; message := B "exit status 1" |})).
  - split; [discriminate|]. split; [reflexivity | lia].
  - reflexivity.
Defined.

(** The hypothesis of [NewTrid_Scan_command] holds of the command started
    by a scan of ["sample.bin"] with the options left empty. *)
Lemma NewTrid_Scan_command_witness :
  exists cmd,
    In cmd (fst (Scan (fun s => s) (fun s => s) (fun _ => None)
                   (fun _ => None) (fun _ => ([], None, false))
                   (NewTrid {| Cmd := []; Definitions := []; Timeout := 0 |})
                   (B "sample.bin") 1))
    /\ name cmd = B "trid"
    /\ timeout cmd = (30 * Second)%Z
    /\ last (args cmd) [] = B "sample.bin".
Proof.
  exists {| name := B "trid"; timeout := (30 * Second)%Z;
            args := [B "-v"; B "-n:1"; B "sample.bin"] |}.
  assert (Hin : In {| name := B "trid"; timeout := (30 * Second)%Z;
                      args := [B "-v"; B "-n:1"; B "sample.bin"] |}
                  (fst (Scan (fun s => s) (fun s => s) (fun _ => None)
                          (fun _ => None) (fun _ => ([], None, false))
                          (NewTrid {| Cmd := []; Definitions := [];
                                      Timeout := 0 |})
                          (B "sample.bin") 1)))
    by (vm_compute; left; reflexivity).
  split; [exact Hin|].
  destruct (NewTrid_Scan_command (fun s => s) (fun s => s) (fun _ => None)
              (fun _ => None) (fun _ => ([], None, false))
              {| Cmd := []; Definitions := []; Timeout := 0 |}
              (B "sample.bin") 1%Z _ Hin) as (_ & _ & Hn & Ht & Hl).
  split; [exact (Hn eq_refl)|]. split; [exact (Ht eq_refl) | exact Hl].
Defined.

(** The hypothesis of [ParseFloat_argument_decimal] holds of the block
    [pdf_block]. *)
Lemma ParseFloat_argument_decimal_witness :
  exists a w,
    probability_field (fun s => s) pdf_block = a :: w
    /\ forallb digit_or_dot (a :: w) = true.
Proof.
  apply (ParseFloat_argument_decimal (fun s => s) pdf_block).
  vm_compute. discriminate.
Defined.

(** The hypothesis of [parseOutput_probability_range] holds of the record
    of [pdf_block]. *)
Lemma parseOutput_probability_range_witness :
  (0 <= Probability pdf_record)%Q
  /\ (Probability pdf_record < inject_Z (2 ^ 1024))%Q.
Proof.
  apply (parseOutput_probability_range (fun s => s) (fun s => s)
           (fun _ => None) pdf_block pdf_record).
  vm_compute. left. reflexivity.
Defined.

(** The hypothesis of [parseOutput_name_trimmed] holds of the record of
    [pdf_block]. *)
Lemma parseOutput_name_trimmed_witness : stops space (Name pdf_record).
Proof.
  apply (parseOutput_name_trimmed (fun s => s) (fun s => s)
           (fun _ => None) pdf_block pdf_record).
  vm_compute. left. reflexivity.
Defined.

(** The hypothesis of [parseOutput_details_trimmed] holds of the record of
    [pdf_block]. *)
Lemma parseOutput_details_trimmed_witness :
  trimmed_line (MimeType pdf_record) /\ trimmed_line (RelatedURL pdf_record)
  /\ trimmed_line (Remarks pdf_record)
  /\ trimmed_line (Definition_ pdf_record).
Proof.
  apply (parseOutput_details_trimmed (fun s => s) (fun s => s)
           (fun _ => None) pdf_block pdf_record).
  vm_compute. left. reflexivity.
Defined.

(** The hypotheses of [parseOutput_blank_line] hold of [pdf_block] followed
    by a blank line and the header ["10.00% (.ps) PostScript"]. *)
Lemma parseOutput_blank_line_witness :
  parseOutput (fun s => s) (fun s => s) (fun _ => None)
    (pdf_block ++ [LF; LF] ++ header_line postscript)
  = (fst (parseOutput (fun s => s) (fun s => s) (fun _ => None) pdf_block)
     ++ fst (parseOutput (fun s => s) (fun s => s) (fun _ => None)
               (header_line postscript)),
     None).
Proof.
  apply (parseOutput_blank_line (fun s => s) (fun s => s) (fun _ => None)
           pdf_block (header_line postscript)).
  - vm_compute. discriminate.
  - vm_compute. discriminate.
Defined.

(** The hypothesis of [parseOutput_line_endings] holds of [pdf_block]. *)
Lemma parseOutput_line_endings_witness :
  parseOutput (fun s => s) (fun s => s) (fun _ => None) (toCRLF pdf_block)
  = parseOutput (fun s => s) (fun s => s) (fun _ => None) pdf_block.
Proof.
  apply (parseOutput_line_endings (fun s => s) (fun s => s) (fun _ => None)
           pdf_block).
  vm_compute. reflexivity.
Defined.
